(** * softlayer-go: service option builders and the XML-RPC transport

    A shallow embedding of [services/compliance.go] (the generated
    [Compliance_Report_Type] service with its option setters) and of the
    XML-RPC transport [XmlRpcTransport.DoRequest] of package [session],
    followed by the properties of the request envelope, of the client pool
    and of the setters.

    Conventions.
    - A Go [string] is a sequence of bytes: Rocq's [string].
    - A Go [int] that is only stored and passed on is a [Z].
    - A field of type [*int] that the code only ever tests against [nil] and
      reads is an [option Z]; the modules [sl_ptr] and [services_ptr] keep
      the pointers and the variables they point to, for the properties that
      depend on sharing.
    - A Go [map[string]T] is a [gmap string T].
    - An [error] built by [fmt.Errorf] is its message; [nil] is [None]. *)

From Stdlib Require Import ZArith Ascii String List.
From stdpp Require Import base option gmap strings list fin_maps.

Local Open Scope Z_scope.
Local Set Warnings "-register-all".

(** ** The functions of Go's [strings] and [fmt] that the code calls *)

(** [strings.HasPrefix(s, prefix)]: [s] begins with [prefix]. *)
Fixpoint HasPrefix (s prefix : string) {struct prefix} : bool :=
  match prefix, s with
  | EmptyString, _ => true
  | String _ _, EmptyString => false
  | String p prefix', String c s' =>
      if decide (c = p) then HasPrefix s' prefix' else false
  end.

(** [strings.Contains(s, substr)]: [substr] occurs within [s]. *)
Fixpoint Contains (s substr : string) : bool :=
  HasPrefix s substr ||
  match s with
  | EmptyString => false
  | String _ s' => Contains s' substr
  end.

(** [fmt.Sprintf("mask[%s]", mask)] *)
Definition Sprintf_mask (mask : string) : string := "mask[" +:+ mask +:+ "]".

(** [fmt.Sprintf("%sInitParameters", service)] *)
Definition Sprintf_InitParameters (service : string) : string :=
  service +:+ "InitParameters".

(** [fmt.Sprintf("%sObjectFilter", service)] *)
Definition Sprintf_ObjectFilter (service : string) : string :=
  service +:+ "ObjectFilter".

(** [fmt.Sprintf("%s/%s", endpoint, service)] *)
Definition Sprintf_url (endpoint service : string) : string :=
  endpoint +:+ "/" +:+ service.

(** ** Package [sl] *)

Module sl.

(** Modelled from the spec: the declaration of [sl.Options] is not among
    the sources.  The fields are the ones the code reads and writes
    ([Id], [Limit] and [Offset] of type [*int], [Mask] and [Filter] of type
    [string]); the spec's OptionSet lists the same five. *)
Record Options : Type := mkOptions {
  Id : option Z;
  Mask : string;
  Filter : string;
  Limit : option Z;
  Offset : option Z
}.

(** The zero value of the struct. *)
Definition zero : Options := mkOptions None EmptyString EmptyString None None.

End sl.

(** ** Package [services] *)

Module services.

Section WithSession.

(** [*session.Session]: the setters only copy it. *)
Context {SessionPtr : Type}.

Record Compliance_Report_Type : Type := mkService {
  Session : option SessionPtr;
  Options : sl.Options
}.

Definition GetComplianceReportTypeService (sess : option SessionPtr)
  : Compliance_Report_Type :=
  mkService sess sl.zero.

Definition Id (r : Compliance_Report_Type) (id : Z) : Compliance_Report_Type :=
  let o := Options r in
  mkService (Session r)
    (sl.mkOptions (Some id) (sl.Mask o) (sl.Filter o) (sl.Limit o) (sl.Offset o)).

(** Lines 48-50: what [Mask] does to its argument before storing it. *)
Definition Mask_wrap (mask : string) : string :=
  if negb (HasPrefix mask "mask[") && Contains mask "["
  then Sprintf_mask mask
  else mask.

Definition Mask (r : Compliance_Report_Type) (mask : string) : Compliance_Report_Type :=
  let mask := Mask_wrap mask in
  let o := Options r in
  mkService (Session r)
    (sl.mkOptions (sl.Id o) mask (sl.Filter o) (sl.Limit o) (sl.Offset o)).

Definition Filter (r : Compliance_Report_Type) (filter : string) : Compliance_Report_Type :=
  let o := Options r in
  mkService (Session r)
    (sl.mkOptions (sl.Id o) (sl.Mask o) filter (sl.Limit o) (sl.Offset o)).

Definition Limit (r : Compliance_Report_Type) (limit : Z) : Compliance_Report_Type :=
  let o := Options r in
  mkService (Session r)
    (sl.mkOptions (sl.Id o) (sl.Mask o) (sl.Filter o) (Some limit) (sl.Offset o)).

Definition Offset (r : Compliance_Report_Type) (offset : Z) : Compliance_Report_Type :=
  let o := Options r in
  mkService (Session r)
    (sl.mkOptions (sl.Id o) (sl.Mask o) (sl.Filter o) (sl.Limit o) (Some offset)).

End WithSession.

Arguments Compliance_Report_Type : clear implicits.
Arguments Mask_wrap : simpl never.

End services.

(** ** Package [encoding/json], as far as [DoRequest] uses it *)

Module json.

(** A JSON text, as [json.Unmarshal] sees it.  A number keeps its literal
    (Go stores a [float64]), an object keeps its members in the order of
    the text. *)
Inductive Value : Type :=
| Null
| Bool (b : bool)
| Number (literal : string)
| Str (s : string)
| Array (elements : list Value)
| Object (members : list (string * Value)).

(** The word the decoder uses for a JSON value in its type errors. *)
Definition kind (v : Value) : string :=
  match v with
  | Null => "null"
  | Bool _ => "bool"
  | Number _ => "number"
  | Str _ => "string"
  | Array _ => "array"
  | Object _ => "object"
  end.

(** A Go value of type [map[string]interface{}]: [None] is the [nil] map. *)
Definition GoMap : Type := option (gmap string Value).

(** Storing the members of an object into a map, one after the other: a
    later member overwrites an earlier one with the same key. *)
Definition store_members (m : gmap string Value) (members : list (string * Value))
  : gmap string Value :=
  foldl (fun m kv => <[kv.1 := kv.2]> m) m members.

Section Unmarshal.

(** The decoder's syntax check and scan of a whole JSON text: the parsed
    value, or the message of the syntax error. *)
Variable scan : string -> string + Value.

(** [json.Unmarshal(data, &objFilter)] for [objFilter] of type
    [map[string]interface{}] holding the map [m], after the documentation
    of the package.  The text is checked first, and a text that is no JSON
    is a syntax error.  An object is stored into [m], which is reused.  The
    value [null] unmarshals into a map by setting it to [nil], and is no
    error.  An array, a number, a string or a boolean cannot be stored into
    a map: the error is an [UnmarshalTypeError], whose message names the
    kind of the value and the type of the map. *)
Definition Unmarshal (data : string) (m : gmap string Value) : string + GoMap :=
  match scan data with
  | inl err => inl err
  | inr (Object members) => inr (Some (store_members m members))
  | inr Null => inr None
  | inr v =>
      inl ("json: cannot unmarshal " +:+ kind v +:+
           " into Go value of type map[string]interface {}")
  end.

End Unmarshal.

(** *** A scanner for JSON texts

    The grammar of RFC 8259, which is the one Go's decoder checks: the
    whole text is one value between optional white space.  The text of a
    string is kept as it is written between its quotes, and the two messages
    of [scan_text] stand for the decoder's syntax errors, whose wording they
    do not follow. *)

Definition is_ws (c : ascii) : bool :=
  match c with
  | " " | "009" | "010" | "013" => true
  | _ => false
  end%char.

Definition is_digit (c : ascii) : bool :=
  match c with
  | "0" | "1" | "2" | "3" | "4" | "5" | "6" | "7" | "8" | "9" => true
  | _ => false
  end%char.

Definition is_hex (c : ascii) : bool :=
  is_digit c ||
  match c with
  | "a" | "b" | "c" | "d" | "e" | "f" | "A" | "B" | "C" | "D" | "E" | "F" => true
  | _ => false
  end%char.

Definition is_control (c : ascii) : bool := (nat_of_ascii c <? 32)%nat.

Fixpoint skip_ws (s : string) : string :=
  match s with
  | String c s' => if is_ws c then skip_ws s' else s
  | EmptyString => s
  end.

(** [strip p s]: what follows [p] in [s], when [s] starts with [p]. *)
Fixpoint strip (p s : string) : option string :=
  match p, s with
  | EmptyString, _ => Some s
  | String a p', String c s' => if decide (c = a) then strip p' s' else None
  | String _ _, EmptyString => None
  end.

(** The longest run of digits at the start of [s], and what follows. *)
Fixpoint digits (s : string) : string * string :=
  match s with
  | String c s' =>
      if is_digit c then let '(d, r) := digits s' in (String c d, r)
      else (EmptyString, s)
  | EmptyString => (EmptyString, s)
  end.

Definition nonempty (s : string) : bool :=
  match s with EmptyString => false | String _ _ => true end.

(** int = zero / ( digit1-9 *DIGIT ) *)
Definition scan_int (s : string) : option (string * string) :=
  match s with
  | String "0"%char s' => Some ("0", s')
  | _ => let '(d, r) := digits s in if nonempty d then Some (d, r) else None
  end.

(** [ frac ] = [ "." 1*DIGIT ] *)
Definition scan_frac (s : string) : option (string * string) :=
  match s with
  | String "."%char s' =>
      let '(d, r) := digits s' in
      if nonempty d then Some (String "."%char d, r) else None
  | _ => Some (EmptyString, s)
  end.

(** [ exp ] = [ ("e" / "E") [ "-" / "+" ] 1*DIGIT ] *)
Definition scan_exp (s : string) : option (string * string) :=
  let after e sign s' :=
    let '(d, r) := digits s' in
    if nonempty d then Some (String e (sign +:+ d), r) else None in
  match s with
  | String ("e"%char as e) (String "+"%char s')
  | String ("E"%char as e) (String "+"%char s') => after e "+" s'
  | String ("e"%char as e) (String "-"%char s')
  | String ("E"%char as e) (String "-"%char s') => after e "-" s'
  | String ("e"%char as e) s'
  | String ("E"%char as e) s' => after e EmptyString s'
  | _ => Some (EmptyString, s)
  end.

(** number = [ "-" ] int [ frac ] [ exp ] *)
Definition scan_number (s : string) : option (string * string) :=
  let '(sign, s) :=
    match s with
    | String "-"%char s' => ("-", s')
    | _ => (EmptyString, s)
    end in
  match scan_int s with
  | None => None
  | Some (i, s) =>
      match scan_frac s with
      | None => None
      | Some (f, s) =>
          match scan_exp s with
          | None => None
          | Some (e, s) => Some (sign +:+ i +:+ f +:+ e, s)
          end
      end
  end.

(** The characters of a string after its opening quote, up to the closing
    quote: no control character, and a backslash only in an escape. *)
Fixpoint scan_chars (s : string) : option (string * string) :=
  match s with
  | EmptyString => None
  | String "034" s' => Some (EmptyString, s')
  | String "092" (String "u" (String h1 (String h2 (String h3 (String h4 s'))))) =>
      if is_hex h1 && is_hex h2 && is_hex h3 && is_hex h4 then
        match scan_chars s' with
        | Some (t, r) =>
            Some (String "092" (String "u" (String h1 (String h2 (String h3 (String h4 t))))), r)
        | None => None
        end
      else None
  | String "092" (String c s') =>
      match c with
      | "034" | "092" | "/" | "b" | "f" | "n" | "r" | "t" =>
          match scan_chars s' with
          | Some (t, r) => Some (String "092" (String c t), r)
          | None => None
          end
      | _ => None
      end
  | String c s' =>
      if is_control c then None
      else match scan_chars s' with
           | Some (t, r) => Some (String c t, r)
           | None => None
           end
  end%char.

Section Composite.

(** The scanner of the values nested one level deeper. *)
Variable value : string -> option (Value * string).

(** The elements of an array after the first, up to the closing bracket. *)
Fixpoint scan_elements (fuel : nat) (acc : list Value) (s : string)
  : option (list Value * string) :=
  match fuel with
  | O => None
  | S fuel =>
      match skip_ws s with
      | String "]" s' => Some (rev acc, s')
      | String "," s' =>
          match value s' with
          | Some (v, s') => scan_elements fuel (v :: acc) s'
          | None => None
          end
      | _ => None
      end
  end%char.

(** One member of an object: a string, a colon, a value. *)
Definition scan_member (s : string) : option ((string * Value) * string) :=
  match skip_ws s with
  | String "034" s' =>
      match scan_chars s' with
      | Some (k, s') =>
          match skip_ws s' with
          | String ":" s' =>
              match value s' with
              | Some (v, s') => Some ((k, v), s')
              | None => None
              end
          | _ => None
          end
      | None => None
      end
  | _ => None
  end%char.

(** The members of an object after the first, up to the closing brace. *)
Fixpoint scan_members (fuel : nat) (acc : list (string * Value)) (s : string)
  : option (list (string * Value) * string) :=
  match fuel with
  | O => None
  | S fuel =>
      match skip_ws s with
      | String "}" s' => Some (rev acc, s')
      | String "," s' =>
          match scan_member s' with
          | Some (kv, s') => scan_members fuel (kv :: acc) s'
          | None => None
          end
      | _ => None
      end
  end%char.

End Composite.

(** One value, with the white space before it. *)
Fixpoint scan_value (fuel : nat) (s : string) : option (Value * string) :=
  match fuel with
  | O => None
  | S fuel =>
      match skip_ws s with
      | String "n"%char _ as s => pair Null <$> strip "null" s
      | String "t"%char _ as s => pair (Bool true) <$> strip "true" s
      | String "f"%char _ as s => pair (Bool false) <$> strip "false" s
      | String "034"%char s' =>
          match scan_chars s' with
          | Some (t, s') => Some (Str t, s')
          | None => None
          end
      | String "["%char s' =>
          match skip_ws s' with
          | String "]"%char s' => Some (Array [], s')
          | _ =>
              match scan_value fuel s' with
              | Some (v, s') =>
                  match scan_elements (scan_value fuel) fuel [v] s' with
                  | Some (l, s') => Some (Array l, s')
                  | None => None
                  end
              | None => None
              end
          end
      | String "{"%char s' =>
          match skip_ws s' with
          | String "}"%char s' => Some (Object [], s')
          | _ =>
              match scan_member (scan_value fuel) s' with
              | Some (kv, s') =>
                  match scan_members (scan_value fuel) fuel [kv] s' with
                  | Some (l, s') => Some (Object l, s')
                  | None => None
                  end
              | None => None
              end
          end
      | s =>
          match scan_number s with
          | Some (n, s') => Some (Number n, s')
          | None => None
          end
      end
  end.

(** The scan of a whole text: one value, then nothing but white space. *)
Definition scan_text (data : string) : string + Value :=
  match scan_value (S (String.length data)) data with
  | Some (v, rest) =>
      match skip_ws rest with
      | EmptyString => inr v
      | String _ _ => inl "invalid character after top-level value"
      end
  | None => inl "invalid JSON text"
  end.

End json.

(** ** Package [session] *)

Module session.

(** Modelled from the spec: the declaration of [session.Session] is not
    among the sources.  The fields are the ones [DoRequest] reads; the
    spec's Session lists the same four. *)
Record Session : Type := mkSession {
  Endpoint : string;
  UserName : string;
  APIKey : string;
  Debug : bool
}.

(** The values of type [http.RoundTripper] that [DoRequest] passes on:
    [debugRoundTripper{}], or [nil] (here [None]). *)
Inductive RoundTripper : Type := debugRoundTripper.

(** [time.Duration]: a number of nanoseconds. *)
Definition Second : Z := 1000000000.

Record XmlRpcTransport : Type := mkTransport { Timeout : Z }.

Definition DefaultXmlRpcTimeout : Z := Second * 30.

(** An [*xmlrpc.Client]: the client object is opaque to this package, which
    only creates it, stores it and calls it.  It is known by its identity
    (two clients created by two calls of [xmlrpc.NewClient] are two
    objects) and by the arguments it was created with. *)
Record Client : Type := mkClient {
  client_addr : nat;
  client_url : string;
  client_transport : option RoundTripper;
  client_timeout : Z
}.

(** The values stored under the keys of [headers]. *)
Inductive HeaderValue : Type :=
| StringMap (m : gmap string string)        (* map[string]string *)
| IntMap (m : gmap string Z)                (* map[string]int *)
| FilterMap (m : json.GoMap).               (* map[string]interface{} *)

Section Transport.

(** The type of the caller-supplied arguments ([interface{}]). *)
Context {Arg : Type}.

(** An element of [params]. *)
Inductive Param : Type :=
| HeaderParam (m : gmap string (gmap string HeaderValue))
| ArgParam (arg : Arg).

(** What the transport does to the outside, in the order it does it. *)
Inductive Event : Type :=
| NewClientEvent (url : string) (roundTripper : option RoundTripper) (timeout : Z)
| CallEvent (client : Client) (method : string) (params : list Param).

(** The state [DoRequest] runs in: the package variable [xmlRpcClients]
    and the trace of the events so far. *)
Record World : Type := mkWorld {
  xmlRpcClients : gmap string Client;
  events : list Event
}.

(** The imported packages.
    - [NewClient_error url roundTripper timeout]: the error
      [xmlrpc.NewClient] returns for these arguments, [None] when it
      returns a client;
    - [Call_error trace client method params]: the error [client.Call]
      returns after the events of [trace];
    - [json_scan]: the JSON decoder's scan of a text. *)
Class Imports : Type := {
  NewClient_error : string -> option RoundTripper -> Z -> option string;
  Call_error : list Event -> Client -> string -> list Param -> option string;
  json_scan : string -> string + json.Value
}.

Context {imports : Imports}.

(** Lines 155-160: the round tripper of a new client. *)
Definition DoRequest_roundTripper (sess : Session) : option RoundTripper :=
  if Debug sess then Some debugRoundTripper else None.

(** Lines 162-165: the timeout of a new client. *)
Definition DoRequest_timeout (x : XmlRpcTransport) : Z :=
  if decide (Timeout x ≠ 0) then Timeout x else DefaultXmlRpcTimeout.

(** Line 173: the error of a failed creation. *)
Definition Errorf_create (service err : string) : string :=
  "Could not create an xmlrpc client for " +:+ service +:+ ": " +:+ err.

(** Line 214: the error of a filter that does not decode. *)
Definition Errorf_filter (err : string) : string :=
  "Error encoding object filter: " +:+ err.

(** Lines 167-171: [xmlrpc.NewClient(url, roundTripper, timeout)].  The
    call is recorded in the trace; the new client is a new object, known
    by the position of its creation in the trace. *)
Definition NewClient (url : string) (roundTripper : option RoundTripper)
    (timeout : Z) (w : World) : (string + Client) * World :=
  let w' :=
    mkWorld (xmlRpcClients w)
      (events w ++ [NewClientEvent url roundTripper timeout]) in
  match NewClient_error url roundTripper timeout with
  | Some err => (inl err, w')
  | None => (inr (mkClient (length (events w)) url roundTripper timeout), w')
  end.

(** Lines 153-177: the client of [service], from the pool or created. *)
Definition DoRequest_client (x : XmlRpcTransport) (sess : Session)
    (service : string) (w : World) : (string + Client) * World :=
  match xmlRpcClients w !! service with
  | Some client => (inr client, w)
  | None =>
      let roundTripper := DoRequest_roundTripper sess in
      let timeout := DoRequest_timeout x in
      match NewClient (Sprintf_url (Endpoint sess) service) roundTripper timeout w with
      | (inl err, w) => (inl (Errorf_create service err), w)
      | (inr client, w) =>
          (inr client, mkWorld (<[service := client]> (xmlRpcClients w)) (events w))
      end
  end.

(** Lines 183-194: the [authenticate] entry, and the init parameters. *)
Definition headers_authenticate (sess : Session) : gmap string HeaderValue :=
  {[ "authenticate" :=
       StringMap {[ "username" := UserName sess; "apiKey" := APIKey sess ]} ]}.

Definition headers_id (service : string) (options : sl.Options)
    (headers : gmap string HeaderValue) : gmap string HeaderValue :=
  match sl.Id options with
  | Some id => <[Sprintf_InitParameters service := IntMap {[ "id" := id ]}]> headers
  | None => headers
  end.

(** Lines 198-200: what [DoRequest] does to a mask that is not empty. *)
Definition mask_wrap (mask : string) : string :=
  if negb (HasPrefix mask "mask[") then Sprintf_mask mask else mask.

(** Lines 196-202: the object mask. *)
Definition headers_mask (options : sl.Options)
    (headers : gmap string HeaderValue) : gmap string HeaderValue :=
  let mask := sl.Mask options in
  if decide (mask ≠ EmptyString) then
    <["SoftLayer_ObjectMask" := StringMap {[ "mask" := mask_wrap mask ]}]> headers
  else headers.

(** Lines 204-217: the object filter; the only step that can fail. *)
Definition headers_filter (service : string) (options : sl.Options)
    (headers : gmap string HeaderValue) : string + gmap string HeaderValue :=
  if decide (sl.Filter options ≠ EmptyString) then
    match json.Unmarshal json_scan (sl.Filter options) ∅ with
    | inl err => inl (Errorf_filter err)
    | inr objFilter => inr (<[Sprintf_ObjectFilter service := FilterMap objFilter]> headers)
    end
  else inr headers.

(** Lines 219-229: the result limit. *)
Definition headers_limit (options : sl.Options)
    (headers : gmap string HeaderValue) : gmap string HeaderValue :=
  match sl.Limit options with
  | Some limit =>
      let offset := match sl.Offset options with Some offset => offset | None => 0 end in
      <["resultLimit" := IntMap {[ "limit" := limit; "offset" := offset ]}]> headers
  | None => headers
  end.

(** Lines 183-229: the header map, or the error that ends the request. *)
Definition DoRequest_headers (sess : Session) (service : string)
    (options : sl.Options) : string + gmap string HeaderValue :=
  let headers := headers_authenticate sess in
  let headers := headers_id service options headers in
  let headers := headers_mask options headers in
  match headers_filter service options headers with
  | inl err => inl err
  | inr headers => inr (headers_limit options headers)
  end.

(** Lines 232-240: the parameter array. *)
Definition DoRequest_params (headers : gmap string HeaderValue) (args : list Arg)
  : list Param :=
  foldl (fun params arg => params ++ [ArgParam arg])
    [HeaderParam {[ "headers" := headers ]}] args.

(** Line 242: [client.Call(method, params, pResult)].  The result holder
    is the caller's; the transport passes it on and only the error comes
    back. *)
Definition Call (client : Client) (method : string) (params : list Param)
    (w : World) : option string * World :=
  (Call_error (events w) client method params,
   mkWorld (xmlRpcClients w) (events w ++ [CallEvent client method params])).

Definition DoRequest (x : XmlRpcTransport) (sess : Session) (service method : string)
    (args : list Arg) (options : sl.Options) (w : World) : option string * World :=
  match DoRequest_client x sess service w with
  | (inl err, w) => (Some err, w)
  | (inr client, w) =>
      match DoRequest_headers sess service options with
      | inl err => (Some err, w)
      | inr headers => Call client method (DoRequest_params headers args) w
      end
  end.

(** *** Reading a trace *)

(** The clients created by the events [trace] that follow [n] events. *)
Fixpoint created (n : nat) (trace : list Event) : list Client :=
  match trace with
  | [] => []
  | NewClientEvent url roundTripper timeout :: trace =>
      match NewClient_error url roundTripper timeout with
      | None => mkClient n url roundTripper timeout :: created (S n) trace
      | Some _ => created (S n) trace
      end
  | CallEvent _ _ _ :: trace => created (S n) trace
  end.

(** The clients that the calls of [trace] were made on. *)
Fixpoint called (trace : list Event) : list Client :=
  match trace with
  | [] => []
  | CallEvent client _ _ :: trace => client :: called trace
  | NewClientEvent _ _ _ :: trace => called trace
  end.

End Transport.

Arguments Param : clear implicits.
Arguments Event : clear implicits.
Arguments World : clear implicits.
Arguments Imports : clear implicits.

End session.


(** ** The setters, with the pointers of [sl.Options] kept

    [r.Options.Id = &id] stores the address of the parameter [id], a new
    variable of every call.  The receiver is a copy of the caller's struct,
    which shares with it the variables its [*int] fields point to. *)

Module sl_ptr.

(** The address of an [int] variable. *)
Abbreviation addr := positive.

(** The [int] variables whose address has been taken, with their values. *)
Abbreviation Heap := (gmap addr Z).

(** Modelled from the spec: [sl.Options] as in module [sl], with its three
    fields of type [*int] as addresses; [None] is [nil]. *)
Record Options : Type := mkOptions {
  Id : option addr;
  Mask : string;
  Filter : string;
  Limit : option addr;
  Offset : option addr
}.

(** [*p] for a pointer field [p] that is not [nil]. *)
Definition deref (h : Heap) (p : option addr) : option Z :=
  match p with
  | Some a => h !! a
  | None => None
  end.

(** What a reader of the struct sees: the fields, the pointers followed. *)
Definition load (h : Heap) (o : Options) : sl.Options :=
  sl.mkOptions (deref h (Id o)) (Mask o) (Filter o) (deref h (Limit o)) (deref h (Offset o)).

(** A pointer is [nil] or the address of a variable. *)
Definition valid (h : Heap) (p : option addr) : Prop :=
  match p with
  | Some a => is_Some (h !! a)
  | None => True
  end.

Definition wf (h : Heap) (o : Options) : Prop :=
  valid h (Id o) ∧ valid h (Limit o) ∧ valid h (Offset o).

End sl_ptr.

Module services_ptr.

Section WithSession.

Context {SessionPtr : Type}.

Record Compliance_Report_Type : Type := mkService {
  Session : option SessionPtr;
  Options : sl_ptr.Options
}.

(** [&v] for a parameter [v]: a variable that no pointer refers to yet. *)
Definition address_of (v : Z) (h : sl_ptr.Heap) : sl_ptr.addr * sl_ptr.Heap :=
  let a := fresh (dom h) in (a, <[a := v]> h).

Definition Id (r : Compliance_Report_Type) (id : Z) (h : sl_ptr.Heap)
  : Compliance_Report_Type * sl_ptr.Heap :=
  let '(p, h) := address_of id h in
  let o := Options r in
  (mkService (Session r)
     (sl_ptr.mkOptions (Some p) (sl_ptr.Mask o) (sl_ptr.Filter o)
        (sl_ptr.Limit o) (sl_ptr.Offset o)),
   h).

Definition Mask (r : Compliance_Report_Type) (mask : string) (h : sl_ptr.Heap)
  : Compliance_Report_Type * sl_ptr.Heap :=
  let mask := services.Mask_wrap mask in
  let o := Options r in
  (mkService (Session r)
     (sl_ptr.mkOptions (sl_ptr.Id o) mask (sl_ptr.Filter o)
        (sl_ptr.Limit o) (sl_ptr.Offset o)),
   h).

Definition Filter (r : Compliance_Report_Type) (filter : string) (h : sl_ptr.Heap)
  : Compliance_Report_Type * sl_ptr.Heap :=
  let o := Options r in
  (mkService (Session r)
     (sl_ptr.mkOptions (sl_ptr.Id o) (sl_ptr.Mask o) filter
        (sl_ptr.Limit o) (sl_ptr.Offset o)),
   h).

Definition Limit (r : Compliance_Report_Type) (limit : Z) (h : sl_ptr.Heap)
  : Compliance_Report_Type * sl_ptr.Heap :=
  let '(p, h) := address_of limit h in
  let o := Options r in
  (mkService (Session r)
     (sl_ptr.mkOptions (sl_ptr.Id o) (sl_ptr.Mask o) (sl_ptr.Filter o)
        (Some p) (sl_ptr.Offset o)),
   h).

Definition Offset (r : Compliance_Report_Type) (offset : Z) (h : sl_ptr.Heap)
  : Compliance_Report_Type * sl_ptr.Heap :=
  let '(p, h) := address_of offset h in
  let o := Options r in
  (mkService (Session r)
     (sl_ptr.mkOptions (sl_ptr.Id o) (sl_ptr.Mask o) (sl_ptr.Filter o)
        (sl_ptr.Limit o) (Some p)),
   h).

(** The five setters, as one call. *)
Inductive Setter : Type :=
| SetId (id : Z)
| SetMask (mask : string)
| SetFilter (filter : string)
| SetLimit (limit : Z)
| SetOffset (offset : Z).

Definition call (s : Setter) (r : Compliance_Report_Type) (h : sl_ptr.Heap)
  : Compliance_Report_Type * sl_ptr.Heap :=
  match s with
  | SetId id => Id r id h
  | SetMask mask => Mask r mask h
  | SetFilter filter => Filter r filter h
  | SetLimit limit => Limit r limit h
  | SetOffset offset => Offset r offset h
  end.

(** The same call on the struct as a reader sees it. *)
Definition call_loaded (s : Setter) (r : services.Compliance_Report_Type SessionPtr)
  : services.Compliance_Report_Type SessionPtr :=
  match s with
  | SetId id => services.Id r id
  | SetMask mask => services.Mask r mask
  | SetFilter filter => services.Filter r filter
  | SetLimit limit => services.Limit r limit
  | SetOffset offset => services.Offset r offset
  end.

(** The struct as a reader sees it. *)
Definition load (h : sl_ptr.Heap) (r : Compliance_Report_Type)
  : services.Compliance_Report_Type SessionPtr :=
  services.mkService (Session r) (sl_ptr.load h (Options r)).

End WithSession.

Arguments Compliance_Report_Type : clear implicits.

End services_ptr.

(** ** Two invocations of [DoRequest] at a time

    [DoRequest] takes no lock.  Its accesses to the outside and to the
    package variable [xmlRpcClients] are the lookup of line 153, the call of
    [xmlrpc.NewClient] of line 167, the store of line 176 and the call of
    line 242; everything between them is local to the invocation.  An
    invocation is a sequence of these steps, and two invocations interleave
    their steps in any order. *)

Module sched.

Section Interleaving.

Context {Arg : Type} {imports : session.Imports Arg}.

(** The arguments of an invocation. *)
Record Request : Type := mkRequest {
  x : session.XmlRpcTransport;
  sess : session.Session;
  service : string;
  method : string;
  args : list Arg;
  options : sl.Options
}.

(** Where an invocation is, with the value of its variable [client]. *)
Inductive Pc : Type :=
| AtLookup                               (* before line 153 *)
| AtNewClient                            (* before line 167 *)
| AtStore (client : session.Client)      (* before line 176 *)
| AtHeaders (client : session.Client)    (* before line 183 *)
| Returned (err : option string).

(** One step of an invocation. *)
Definition step (q : Request) (pc : Pc) (w : session.World Arg)
  : Pc * session.World Arg :=
  match pc with
  | AtLookup =>
      match session.xmlRpcClients w !! service q with
      | Some client => (AtHeaders client, w)
      | None => (AtNewClient, w)
      end
  | AtNewClient =>
      match session.NewClient (Sprintf_url (session.Endpoint (sess q)) (service q))
              (session.DoRequest_roundTripper (sess q))
              (session.DoRequest_timeout (x q)) w with
      | (inl err, w) => (Returned (Some (session.Errorf_create (service q) err)), w)
      | (inr client, w) => (AtStore client, w)
      end
  | AtStore client =>
      (AtHeaders client,
       session.mkWorld (<[service q := client]> (session.xmlRpcClients w))
         (session.events w))
  | AtHeaders client =>
      match session.DoRequest_headers (sess q) (service q) (options q) with
      | inl err => (Returned (Some err), w)
      | inr headers =>
          let '(err, w) :=
            session.Call client (method q)
              (session.DoRequest_params headers (args q)) w in
          (Returned err, w)
      end
  | Returned err => (Returned err, w)
  end.

(** An invocation on its own: its steps, one after the other. *)
Fixpoint steps (n : nat) (q : Request) (pc : Pc) (w : session.World Arg)
  : Pc * session.World Arg :=
  match n with
  | O => (pc, w)
  | S n => let '(pc, w) := step q pc w in steps n q pc w
  end.

(** Two invocations and the state they share. *)
Record Config : Type := mkConfig {
  pc1 : Pc;
  pc2 : Pc;
  world : session.World Arg
}.

(** A schedule names the invocation that takes the next step: [true] the
    first, [false] the second. *)
Fixpoint run (q1 q2 : Request) (schedule : list bool) (c : Config) : Config :=
  match schedule with
  | [] => c
  | true :: schedule =>
      let '(pc, w) := step q1 (pc1 c) (world c) in
      run q1 q2 schedule (mkConfig pc (pc2 c) w)
  | false :: schedule =>
      let '(pc, w) := step q2 (pc2 c) (world c) in
      run q1 q2 schedule (mkConfig (pc1 c) pc w)
  end.

Definition returned (pc : Pc) : bool :=
  match pc with
  | Returned _ => true
  | _ => false
  end.

(** The number of steps an invocation has left, at most. *)
Definition rank (pc : Pc) : nat :=
  match pc with
  | AtLookup => 4
  | AtNewClient => 3
  | AtStore _ => 2
  | AtHeaders _ => 1
  | Returned _ => 0
  end.

(** The number of steps a schedule gives to the first or to the second. *)
Definition turns (first : bool) (schedule : list bool) : nat :=
  length (filter (fun b => b = first) schedule).

(** *** What holds at every point of two invocations

    for the service [sv], started in the world [w0]: [clients] are the
    clients created since, [pool] is the value of [xmlRpcClients]. *)

(** One of the clients has been stored. *)
Definition stored (sv : string) (w0 : session.World Arg)
    (clients : list session.Client) (pool : gmap string session.Client) : Prop :=
  ∃ client, client ∈ clients ∧ pool = <[sv := client]> (session.xmlRpcClients w0).

(** The variable [client] of an invocation holds one of the clients, and an
    invocation that is past line 177 has seen or made the store. *)
Definition pc_ok (sv : string) (w0 : session.World Arg)
    (clients : list session.Client) (pool : gmap string session.Client)
    (pc : Pc) : Prop :=
  match pc with
  | AtLookup | AtNewClient => True
  | AtStore client => client ∈ clients
  | AtHeaders client => client ∈ clients ∧ stored sv w0 clients pool
  | Returned _ => stored sv w0 clients pool
  end.

(** The number of calls of [xmlrpc.NewClient] an invocation can have made. *)
Definition past (pc : Pc) : nat :=
  match pc with
  | AtLookup | AtNewClient => 0
  | _ => 1
  end.

(** The world [w] after the events [trace]. *)
Definition world_ok (sv : string) (w0 : session.World Arg)
    (trace : list (session.Event Arg)) (w : session.World Arg) : Prop :=
  let clients := session.created (length (session.events w0)) trace in
  session.events w = session.events w0 ++ trace ∧
  (session.xmlRpcClients w = session.xmlRpcClients w0 ∨
   stored sv w0 clients (session.xmlRpcClients w)) ∧
  (∀ client, client ∈ session.called trace → client ∈ clients).

Definition invariant (sv : string) (w0 : session.World Arg) (c : Config) : Prop :=
  ∃ trace,
    let clients := session.created (length (session.events w0)) trace in
    world_ok sv w0 trace (world c) ∧
    pc_ok sv w0 clients (session.xmlRpcClients (world c)) (pc1 c) ∧
    pc_ok sv w0 clients (session.xmlRpcClients (world c)) (pc2 c) ∧
    (length clients ≤ past (pc1 c) + past (pc2 c))%nat.

End Interleaving.

Arguments Request : clear implicits.
Arguments Config : clear implicits.

End sched.

(** ** The debugging round tripper of package [session]

    [debugRoundTripper.RoundTrip] (lines 119-135) writes the request and the
    response to the log and hands the request to [http.DefaultTransport]. *)

Module debug.

Section RoundTrip.

(** What [*http.Request] and [*http.Response] point to. *)
Context {Request Response : Type}.

(** The imported functions.
    - [DumpRequestOut request]: the bytes [httputil.DumpRequestOut(request,
      true)] returns; the code drops its error;
    - [DumpResponse response]: the bytes [httputil.DumpResponse(response,
      true)] returns; the code drops its error;
    - [DefaultTransport request]: the response, [None] for [nil], and the
      error of [http.DefaultTransport.RoundTrip(request)]. *)
Variable DumpRequestOut : Request -> string.
Variable DumpResponse : option Response -> string.
Variable DefaultTransport : Request -> option Response * option string.

(** The lines written by [log.Println], the oldest first. *)
Definition Println (line : string) (log : list string) : list string :=
  log ++ [line].

(** The line feed. *)
Definition LF : ascii := "010"%char.

Definition RoundTrip (request : Request) (log : list string)
  : (option Response * option string) * list string :=
  let log := Println "->>>Request:" log in
  let dumpedReq := DumpRequestOut request in
  let log := Println dumpedReq log in
  let '(response, err) := DefaultTransport request in
  match err with
  | Some e =>
      let log := Println ("Error: " +:+ e) log in
      ((response, err), log)
  | None =>
      let log := Println (String LF (String LF "<<<-Response:")) log in
      let dumpedResp := DumpResponse response in
      let log := Println dumpedResp log in
      ((response, err), log)
  end.

End RoundTrip.

End debug.

(** ** Callers

    A caller makes its requests one after the other, and sets its options by
    a chain of setter calls. *)

Module caller.

Section Requests.

Context {Arg : Type} {imports : session.Imports Arg}.

(** [DoRequest] for the requests of a list, in their order: the errors
    returned, and the world after the last. *)
Fixpoint DoRequests (requests : list (sched.Request Arg)) (w : session.World Arg)
  : list (option string) * session.World Arg :=
  match requests with
  | [] => ([], w)
  | q :: requests =>
      let '(err, w) :=
        session.DoRequest (sched.x q) (sched.sess q) (sched.service q)
          (sched.method q) (sched.args q) (sched.options q) w in
      let '(errs, w) := DoRequests requests w in
      (err :: errs, w)
  end.

End Requests.

Section Setters.

Context {SessionPtr : Type}.

(** [r.s1(..).s2(..)...]: the setters of a list called one on the result
    of the other. *)
Definition chain (setters : list services_ptr.Setter)
    (r : services.Compliance_Report_Type SessionPtr)
  : services.Compliance_Report_Type SessionPtr :=
  foldl (fun r s => services_ptr.call_loaded s r) r setters.

(** The argument of the last call of a list that [pick] selects. *)
Definition last_call {A : Type} (pick : services_ptr.Setter -> option A)
    (setters : list services_ptr.Setter) : option A :=
  foldl (fun found s => match pick s with Some a => Some a | None => found end)
    None setters.

Definition id_of (s : services_ptr.Setter) : option Z :=
  match s with services_ptr.SetId id => Some id | _ => None end.

Definition mask_of (s : services_ptr.Setter) : option string :=
  match s with services_ptr.SetMask mask => Some mask | _ => None end.

Definition filter_of (s : services_ptr.Setter) : option string :=
  match s with services_ptr.SetFilter filter => Some filter | _ => None end.

Definition limit_of (s : services_ptr.Setter) : option Z :=
  match s with services_ptr.SetLimit limit => Some limit | _ => None end.

Definition offset_of (s : services_ptr.Setter) : option Z :=
  match s with services_ptr.SetOffset offset => Some offset | _ => None end.

(** The same chain on the struct with its pointers: each call runs in the
    store the call before it has left. *)
Definition chain_ptr (setters : list services_ptr.Setter)
    (r : services_ptr.Compliance_Report_Type SessionPtr) (h : sl_ptr.Heap)
  : services_ptr.Compliance_Report_Type SessionPtr * sl_ptr.Heap :=
  foldl (fun rh s => services_ptr.call s rh.1 rh.2) (r, h) setters.

End Setters.

End caller.

(** ** Two invocations for services that have their clients

    What holds at every point of two invocations when the pool has a client
    for the service of each of them. *)

Module warm.

Section Invariant.

Context {Arg : Type}.

(** An invocation that finds [client] in the pool is at the lookup, has
    [client] in its variable, or has returned. *)
Definition pc_ok (client : session.Client) (pc : sched.Pc) : Prop :=
  match pc with
  | sched.AtLookup => True
  | sched.AtHeaders client' => client' = client
  | sched.Returned _ => True
  | sched.AtNewClient | sched.AtStore _ => False
  end.

(** The event is a call on one of the two clients. *)
Definition call_on (client1 client2 : session.Client) (e : session.Event Arg) : Prop :=
  match e with
  | session.CallEvent client _ _ => client = client1 ∨ client = client2
  | session.NewClientEvent _ _ _ => False
  end.

(** The number of calls an invocation can have made. *)
Definition calls_made (pc : sched.Pc) : nat :=
  match pc with
  | sched.Returned _ => 1
  | _ => 0
  end.

Definition invariant (w0 : session.World Arg) (client1 client2 : session.Client)
    (c : sched.Config Arg) : Prop :=
  session.xmlRpcClients (sched.world c) = session.xmlRpcClients w0 ∧
  pc_ok client1 (sched.pc1 c) ∧
  pc_ok client2 (sched.pc2 c) ∧
  ∃ rest,
    session.events (sched.world c) = session.events w0 ++ rest ∧
    Forall (call_on client1 client2) rest ∧
    (length rest ≤ calls_made (sched.pc1 c) + calls_made (sched.pc2 c))%nat.

End Invariant.

End warm.

(** ** Stand-ins for the imported packages

    [xmlrpc.NewClient] fails when [url.Parse] rejects the URL, as it does for
    a URL that starts with a colon (no protocol scheme); the remote end
    answers every call; the JSON scanner is [json.scan_text]. *)

Module stub.

Definition NewClient_error (url : string) (roundTripper : option session.RoundTripper)
    (timeout : Z) : option string :=
  if HasPrefix url ":" then Some "missing protocol scheme" else None.

Definition Call_error (trace : list (session.Event Z)) (client : session.Client)
    (method : string) (params : list (session.Param Z)) : option string :=
  None.

Definition imports : session.Imports Z :=
  {| session.NewClient_error := NewClient_error;
     session.Call_error := Call_error;
     session.json_scan := json.scan_text |}.

(** No client yet, nothing done yet. *)
Definition start : session.World Z := session.mkWorld ∅ [].

(** A session, and one whose endpoint [url.Parse] rejects. *)
Definition sess : session.Session :=
  session.mkSession "https://api.example.com" "u" "k" false.

Definition bad_sess : session.Session := session.mkSession ":" "u" "k" false.

(** A transport without a timeout of its own. *)
Definition transport : session.XmlRpcTransport := session.mkTransport 0.

(** The entry [authenticate] of the requests of [sess]. *)
Definition authenticate : session.HeaderValue :=
  session.StringMap {[ "username" := "u"; "apiKey" := "k" ]}.

(** The first and the second client created for the service [Widget]. *)
Definition client0 : session.Client :=
  session.mkClient 0 "https://api.example.com/Widget" None 30000000000.

Definition client1 : session.Client :=
  session.mkClient 1 "https://api.example.com/Widget" None 30000000000.

(** The service struct before any setter. *)
Definition service : services.Compliance_Report_Type unit :=
  services.GetComplianceReportTypeService None.

(** Options with nothing but the one field set. *)
Definition with_id (id : Z) : sl.Options :=
  sl.mkOptions (Some id) EmptyString EmptyString None None.

Definition with_filter (filter : string) : sl.Options :=
  sl.mkOptions None EmptyString filter None None.

Definition with_limit (limit : Z) (offset : option Z) : sl.Options :=
  sl.mkOptions None EmptyString EmptyString (Some limit) offset.

(** The request [Widget.getObject] with the id 42. *)
Definition request : sched.Request Z :=
  sched.mkRequest transport sess "Widget" "getObject" [] (with_id 42).


(** Options with an id, a mask and a limit. *)
Definition with_id_mask_limit (id : Z) (mask : string) (limit : Z) : sl.Options :=
  sl.mkOptions (Some id) mask EmptyString (Some limit) None.

(** A struct whose [Id] points to the variable 1, which holds 7. *)
Definition heap : sl_ptr.Heap := {[ 1%positive := 7 ]}.

Definition service_ptr : services_ptr.Compliance_Report_Type unit :=
  services_ptr.mkService None
    (sl_ptr.mkOptions (Some 1%positive) EmptyString EmptyString None None).

End stub.

(** * Properties *)

(** ** Strings *)

Lemma append_cons (a : ascii) (s t : string) : String a s +:+ t = String a (s +:+ t).
Proof. reflexivity. Qed.

Lemma length_append (s t : string) :
  String.length (s +:+ t) = (String.length s + String.length t)%nat.
Proof. induction s as [|a s IH]; [done|]. rewrite append_cons. simpl. by rewrite IH. Qed.

Lemma HasPrefix_append (p s : string) : HasPrefix (p +:+ s) p = true.
Proof.
  induction p as [|a p IH]; [done|].
  rewrite append_cons. simpl. by rewrite decide_True.
Qed.

Lemma HasPrefix_Sprintf_mask (m : string) : HasPrefix (Sprintf_mask m) "mask[" = true.
Proof. unfold Sprintf_mask. apply HasPrefix_append. Qed.

Lemma HasPrefix_empty (p : string) :
  HasPrefix EmptyString p = true → p = EmptyString.
Proof. by destruct p. Qed.

Lemma HasPrefix_trans (s p q : string) :
  HasPrefix s p = true → HasPrefix p q = true → HasPrefix s q = true.
Proof.
  revert s p. induction q as [|c q IH]; intros s p Hsp Hpq; [done|].
  destruct p as [|b p]; [done|]. destruct s as [|a s]; [done|].
  simpl in *.
  destruct (decide (b = c)) as [->|]; [|done].
  destruct (decide (a = c)) as [->|]; [|done].
  by apply (IH s p).
Qed.

(** A string that starts with a string that contains [sub] contains [sub]. *)
Lemma Contains_HasPrefix (s p sub : string) :
  HasPrefix s p = true → Contains p sub = true → Contains s sub = true.
Proof.
  revert s. induction p as [|a p IH]; intros s Hp Hc.
  - apply orb_true_iff in Hc as [Hc|Hc]; [|done].
    apply HasPrefix_empty in Hc as ->. by destruct s.
  - destruct s as [|c s]; [done|].
    assert (Hp' := Hp). simpl in Hp'.
    destruct (decide (c = a)) as [->|]; [|done].
    cbn [Contains] in Hc |- *.
    apply orb_true_iff in Hc as [Hc|Hc]; apply orb_true_iff.
    + left. by apply (HasPrefix_trans _ (String a p)).
    + right. by apply IH.
Qed.

Lemma HasPrefix_mask_Contains (m : string) :
  HasPrefix m "mask[" = true → Contains m "[" = true.
Proof. intros H. by apply (Contains_HasPrefix m "mask["). Qed.

(** The keys of the header map are five different strings. *)
Ltac append_neq s H :=
  destruct s as [|? s];
  [ by vm_compute in H
  | rewrite append_cons in H;
    first [ discriminate H | injection H as _ H; append_neq s H ] ].

Lemma InitParameters_authenticate (s : string) :
  Sprintf_InitParameters s ≠ "authenticate".
Proof. unfold Sprintf_InitParameters. intros H. append_neq s H. Qed.

Lemma InitParameters_ObjectMask (s : string) :
  Sprintf_InitParameters s ≠ "SoftLayer_ObjectMask".
Proof. unfold Sprintf_InitParameters. intros H. append_neq s H. Qed.

Lemma InitParameters_resultLimit (s : string) :
  Sprintf_InitParameters s ≠ "resultLimit".
Proof. unfold Sprintf_InitParameters. intros H. append_neq s H. Qed.

Lemma InitParameters_ObjectFilter (s : string) :
  Sprintf_InitParameters s ≠ Sprintf_ObjectFilter s.
Proof.
  unfold Sprintf_InitParameters, Sprintf_ObjectFilter.
  intros H. by apply (inj (String.append s)) in H.
Qed.

Lemma ObjectFilter_authenticate (s : string) :
  Sprintf_ObjectFilter s ≠ "authenticate".
Proof. unfold Sprintf_ObjectFilter. intros H. append_neq s H. Qed.

Lemma ObjectFilter_ObjectMask (s : string) :
  Sprintf_ObjectFilter s ≠ "SoftLayer_ObjectMask".
Proof. unfold Sprintf_ObjectFilter. intros H. append_neq s H. Qed.

Lemma ObjectFilter_resultLimit (s : string) :
  Sprintf_ObjectFilter s ≠ "resultLimit".
Proof. unfold Sprintf_ObjectFilter. intros H. append_neq s H. Qed.

(** ** The two ways of wrapping a mask *)

Lemma Mask_wrap_bracket (m : string) :
  HasPrefix m "mask[" = false → Contains m "[" = true →
  services.Mask_wrap m = Sprintf_mask m.
Proof. intros Hp Hc. unfold services.Mask_wrap. by rewrite Hp, Hc. Qed.

Lemma Mask_wrap_prefix (m : string) :
  HasPrefix m "mask[" = true → services.Mask_wrap m = m.
Proof. intros Hp. unfold services.Mask_wrap. by rewrite Hp. Qed.

Lemma Mask_wrap_plain (m : string) :
  Contains m "[" = false → services.Mask_wrap m = m.
Proof. intros Hc. unfold services.Mask_wrap. rewrite Hc. by destruct (HasPrefix _ _). Qed.

Lemma mask_wrap_prefix (m : string) :
  HasPrefix m "mask[" = true → session.mask_wrap m = m.
Proof. intros Hp. unfold session.mask_wrap. by rewrite Hp. Qed.

Lemma mask_wrap_no_prefix (m : string) :
  HasPrefix m "mask[" = false → session.mask_wrap m = Sprintf_mask m.
Proof. intros Hp. unfold session.mask_wrap. by rewrite Hp. Qed.

Lemma Sprintf_mask_neq (m : string) : Sprintf_mask m ≠ m.
Proof.
  intros H. apply (f_equal String.length) in H.
  unfold Sprintf_mask in H. rewrite !length_append in H. simpl in H. lia.
Qed.

Lemma Sprintf_mask_nonempty (m : string) : Sprintf_mask m ≠ EmptyString.
Proof. done. Qed.

(** The two agree exactly on the masks that have the prefix or a bracket. *)
Lemma Mask_wrap_mask_wrap (m : string) :
  services.Mask_wrap m = session.mask_wrap m ↔
  HasPrefix m "mask[" = true ∨ Contains m "[" = true.
Proof.
  unfold services.Mask_wrap, session.mask_wrap.
  destruct (HasPrefix m "mask[") eqn:Hp; simpl; [by split; auto|].
  destruct (Contains m "[") eqn:Hc; [by split; auto|].
  split; [|by intros [|]].
  intros Heq. symmetry in Heq. by apply Sprintf_mask_neq in Heq.
Qed.

Lemma Mask_wrap_idempotent (m : string) :
  services.Mask_wrap (services.Mask_wrap m) = services.Mask_wrap m.
Proof.
  unfold services.Mask_wrap at 2 3.
  destruct (HasPrefix m "mask[") eqn:Hp; simpl.
  - by apply Mask_wrap_prefix.
  - destruct (Contains m "[") eqn:Hc.
    + apply Mask_wrap_prefix, HasPrefix_Sprintf_mask.
    + by apply Mask_wrap_plain.
Qed.

Lemma mask_wrap_idempotent (m : string) :
  session.mask_wrap (session.mask_wrap m) = session.mask_wrap m.
Proof.
  unfold session.mask_wrap at 2 3.
  destruct (HasPrefix m "mask[") eqn:Hp; simpl.
  - by apply mask_wrap_prefix.
  - apply mask_wrap_prefix, HasPrefix_Sprintf_mask.
Qed.

Lemma mask_wrap_Mask_wrap (m : string) :
  session.mask_wrap (services.Mask_wrap m) = session.mask_wrap m.
Proof.
  unfold services.Mask_wrap.
  destruct (HasPrefix m "mask[") eqn:Hp; simpl; [done|].
  destruct (Contains m "[") eqn:Hc; [|done].
  rewrite mask_wrap_prefix by apply HasPrefix_Sprintf_mask.
  by rewrite mask_wrap_no_prefix.
Qed.

(** ** The header map *)

Section Headers.

Context {Arg : Type} {imports : session.Imports Arg}.

Implicit Types (sess : session.Session) (service : string) (options : sl.Options).
Implicit Types (headers : gmap string session.HeaderValue).

Lemma lookup_headers_authenticate sess :
  session.headers_authenticate sess !! "authenticate" =
  Some (session.StringMap
          {[ "username" := session.UserName sess; "apiKey" := session.APIKey sess ]}).
Proof. unfold session.headers_authenticate. by rewrite lookup_singleton_eq. Qed.

Lemma lookup_headers_authenticate_ne sess (k : string) :
  k ≠ "authenticate" → session.headers_authenticate sess !! k = None.
Proof. intros. unfold session.headers_authenticate. by rewrite lookup_singleton_ne. Qed.

Lemma lookup_headers_id service options headers :
  session.headers_id service options headers !! Sprintf_InitParameters service =
  match sl.Id options with
  | Some id => Some (session.IntMap {[ "id" := id ]})
  | None => headers !! Sprintf_InitParameters service
  end.
Proof.
  unfold session.headers_id. destruct (sl.Id options); [|done].
  by rewrite lookup_insert_eq.
Qed.

Lemma lookup_headers_id_ne service options headers (k : string) :
  k ≠ Sprintf_InitParameters service →
  session.headers_id service options headers !! k = headers !! k.
Proof.
  intros. unfold session.headers_id. destruct (sl.Id options); [|done].
  by rewrite lookup_insert_ne.
Qed.

Lemma lookup_headers_mask options headers :
  session.headers_mask options headers !! "SoftLayer_ObjectMask" =
  if decide (sl.Mask options ≠ EmptyString)
  then Some (session.StringMap {[ "mask" := session.mask_wrap (sl.Mask options) ]})
  else headers !! "SoftLayer_ObjectMask".
Proof.
  unfold session.headers_mask. case_decide; [|done]. by rewrite lookup_insert_eq.
Qed.

Lemma lookup_headers_mask_ne options headers (k : string) :
  k ≠ "SoftLayer_ObjectMask" →
  session.headers_mask options headers !! k = headers !! k.
Proof.
  intros. unfold session.headers_mask. case_decide; [|done].
  by rewrite lookup_insert_ne.
Qed.

Lemma lookup_headers_filter_ne service options headers headers' (k : string) :
  session.headers_filter service options headers = inr headers' →
  k ≠ Sprintf_ObjectFilter service →
  headers' !! k = headers !! k.
Proof.
  unfold session.headers_filter. intros H Hk.
  case_decide; [|by simplify_eq].
  destruct (json.Unmarshal _ _ _); simplify_eq.
  by rewrite lookup_insert_ne.
Qed.

Lemma lookup_headers_limit options headers :
  session.headers_limit options headers !! "resultLimit" =
  match sl.Limit options with
  | Some limit =>
      Some (session.IntMap
              {[ "limit" := limit;
                 "offset" := match sl.Offset options with
                             | Some offset => offset
                             | None => 0
                             end ]})
  | None => headers !! "resultLimit"
  end.
Proof.
  unfold session.headers_limit. destruct (sl.Limit options); [|done].
  by rewrite lookup_insert_eq.
Qed.

Lemma lookup_headers_limit_ne options headers (k : string) :
  k ≠ "resultLimit" →
  session.headers_limit options headers !! k = headers !! k.
Proof.
  intros. unfold session.headers_limit. destruct (sl.Limit options); [|done].
  by rewrite lookup_insert_ne.
Qed.

(** The steps of [DoRequest_headers], when it returns a header map. *)
Lemma DoRequest_headers_inr sess service options headers :
  session.DoRequest_headers sess service options = inr headers →
  ∃ headers',
    session.headers_filter service options
      (session.headers_mask options
         (session.headers_id service options (session.headers_authenticate sess)))
    = inr headers' ∧
    headers = session.headers_limit options headers'.
Proof.
  unfold session.DoRequest_headers. intros H.
  destruct (session.headers_filter _ _ _) as [|headers']; [done|].
  exists headers'. by simplify_eq.
Qed.

(** It returns one whenever there is no filter to decode. *)
Lemma DoRequest_headers_no_filter sess service options :
  sl.Filter options = EmptyString →
  ∃ headers, session.DoRequest_headers sess service options = inr headers.
Proof.
  intros Hf. unfold session.DoRequest_headers, session.headers_filter.
  rewrite Hf. rewrite decide_False by naive_solver. eauto.
Qed.

Lemma lookup_DoRequest_headers_authenticate sess service options headers :
  session.DoRequest_headers sess service options = inr headers →
  headers !! "authenticate" =
  Some (session.StringMap
          {[ "username" := session.UserName sess; "apiKey" := session.APIKey sess ]}).
Proof.
  intros (headers' & Hf & ->)%DoRequest_headers_inr.
  rewrite lookup_headers_limit_ne by done.
  rewrite (lookup_headers_filter_ne _ _ _ _ _ Hf)
    by (symmetry; apply ObjectFilter_authenticate).
  rewrite lookup_headers_mask_ne by done.
  rewrite lookup_headers_id_ne by (symmetry; apply InitParameters_authenticate).
  apply lookup_headers_authenticate.
Qed.

Lemma lookup_DoRequest_headers_InitParameters sess service options headers :
  session.DoRequest_headers sess service options = inr headers →
  headers !! Sprintf_InitParameters service =
  (fun id => session.IntMap {[ "id" := id ]}) <$> sl.Id options.
Proof.
  intros (headers' & Hf & ->)%DoRequest_headers_inr.
  rewrite lookup_headers_limit_ne by apply InitParameters_resultLimit.
  rewrite (lookup_headers_filter_ne _ _ _ _ _ Hf)
    by apply InitParameters_ObjectFilter.
  rewrite lookup_headers_mask_ne by apply InitParameters_ObjectMask.
  rewrite lookup_headers_id. destruct (sl.Id options); [done|].
  simpl. apply lookup_headers_authenticate_ne, InitParameters_authenticate.
Qed.

Lemma lookup_DoRequest_headers_ObjectMask sess service options headers :
  session.DoRequest_headers sess service options = inr headers →
  headers !! "SoftLayer_ObjectMask" =
  if decide (sl.Mask options ≠ EmptyString)
  then Some (session.StringMap {[ "mask" := session.mask_wrap (sl.Mask options) ]})
  else None.
Proof.
  intros (headers' & Hf & ->)%DoRequest_headers_inr.
  rewrite lookup_headers_limit_ne by done.
  rewrite (lookup_headers_filter_ne _ _ _ _ _ Hf)
    by (symmetry; apply ObjectFilter_ObjectMask).
  rewrite lookup_headers_mask. case_decide; [done|].
  rewrite lookup_headers_id_ne by (symmetry; apply InitParameters_ObjectMask).
  by apply lookup_headers_authenticate_ne.
Qed.

Lemma lookup_DoRequest_headers_resultLimit sess service options headers :
  session.DoRequest_headers sess service options = inr headers →
  headers !! "resultLimit" =
  (fun limit =>
     session.IntMap
       {[ "limit" := limit;
          "offset" := match sl.Offset options with
                      | Some offset => offset
                      | None => 0
                      end ]}) <$> sl.Limit options.
Proof.
  intros (headers' & Hf & ->)%DoRequest_headers_inr.
  rewrite lookup_headers_limit. destruct (sl.Limit options); [done|]. simpl.
  rewrite (lookup_headers_filter_ne _ _ _ _ _ Hf)
    by (symmetry; apply ObjectFilter_resultLimit).
  rewrite lookup_headers_mask_ne by done.
  rewrite lookup_headers_id_ne by (symmetry; apply InitParameters_resultLimit).
  by apply lookup_headers_authenticate_ne.
Qed.

End Headers.

(** ** The envelope *)

Section Envelope.

Context {Arg : Type} {imports : session.Imports Arg}.

Implicit Types (x : session.XmlRpcTransport) (sess : session.Session).
Implicit Types (service method : string) (options : sl.Options) (args : list Arg).
Implicit Types (headers : gmap string session.HeaderValue) (w : session.World Arg).

(** The loop of lines 238-240 appends the arguments in their order. *)
Lemma DoRequest_params_eq headers args :
  session.DoRequest_params headers args =
  session.HeaderParam {[ "headers" := headers ]} :: (session.ArgParam <$> args).
Proof.
  unfold session.DoRequest_params.
  change (session.HeaderParam {[ "headers" := headers ]} :: (session.ArgParam <$> args))
    with ([session.HeaderParam {[ "headers" := headers ]}] ++ (session.ArgParam <$> args)).
  generalize [session.HeaderParam (Arg:=Arg) {[ "headers" := headers ]}] as params.
  induction args as [|arg args IH]; intros params; simpl.
  - by rewrite app_nil_r.
  - rewrite IH. by rewrite <- app_assoc.
Qed.

(** [DoRequest] when the client is there and the header map is built. *)
Lemma DoRequest_dispatch x sess service method args options w client w1 headers :
  session.DoRequest_client x sess service w = (inr client, w1) →
  session.DoRequest_headers sess service options = inr headers →
  session.DoRequest x sess service method args options w =
  session.Call client method (session.DoRequest_params headers args) w1.
Proof. intros Hc Hh. unfold session.DoRequest. by rewrite Hc, Hh. Qed.

(** [DoRequest] when the header map is not built. *)
Lemma DoRequest_headers_error x sess service method args options w client w1 err :
  session.DoRequest_client x sess service w = (inr client, w1) →
  session.DoRequest_headers sess service options = inl err →
  session.DoRequest x sess service method args options w = (Some err, w1).
Proof. intros Hc Hh. unfold session.DoRequest. by rewrite Hc, Hh. Qed.

(** [DoRequest] when there is no client. *)
Lemma DoRequest_client_error x sess service method args options w w1 err :
  session.DoRequest_client x sess service w = (inl err, w1) →
  session.DoRequest x sess service method args options w = (Some err, w1).
Proof. intros Hc. unfold session.DoRequest. by rewrite Hc. Qed.

(** C2. When [Limit] is set and [Offset] is not, the header map has the
    entry [resultLimit] with the limit and the offset 0; when both are set,
    the entry has both values as they are; when [Limit] is not set there is
    no entry [resultLimit], whatever [Offset] is. *)
Theorem resultLimit_entry sess service options headers :
  session.DoRequest_headers sess service options = inr headers →
  (∀ limit, sl.Limit options = Some limit → sl.Offset options = None →
     headers !! "resultLimit" =
     Some (session.IntMap {[ "limit" := limit; "offset" := 0 ]})) ∧
  (∀ limit offset, sl.Limit options = Some limit → sl.Offset options = Some offset →
     headers !! "resultLimit" =
     Some (session.IntMap {[ "limit" := limit; "offset" := offset ]})) ∧
  (sl.Limit options = None → headers !! "resultLimit" = None).
Proof.
  intros Hh. rewrite (lookup_DoRequest_headers_resultLimit _ _ _ _ Hh).
  split_and!.
  - by intros limit -> ->.
  - by intros limit offset -> ->.
  - by intros ->.
Qed.

(** C3. When [Id] is set, the header map has under the key
    [service ++ "InitParameters"] the map with the one entry [id]; when [Id]
    is not set, the header map has no such key. *)
Theorem InitParameters_entry sess service options headers :
  session.DoRequest_headers sess service options = inr headers →
  (∀ id, sl.Id options = Some id →
     headers !! (service +:+ "InitParameters") =
     Some (session.IntMap {[ "id" := id ]})) ∧
  (sl.Id options = None → headers !! (service +:+ "InitParameters") = None).
Proof.
  intros Hh.
  change (service +:+ "InitParameters") with (Sprintf_InitParameters service).
  rewrite (lookup_DoRequest_headers_InitParameters _ _ _ _ Hh).
  split; [by intros id ->|by intros ->].
Qed.

(** C4. When [DoRequest] reaches the call, the parameters it passes are the
    map with the one key [headers] followed by the arguments of the caller
    in their order, and the header map has the entry [authenticate] with the
    user name and the API key of the session.  For the session of user [u]
    with key [k], the service [Widget], the id 42 and no argument, the
    parameters are the one map
    [{headers: {authenticate: {username: u, apiKey: k},
                WidgetInitParameters: {id: 42}}}]. *)
Theorem params_headers_first x sess service method args options w client w1 headers :
  session.DoRequest_client x sess service w = (inr client, w1) →
  session.DoRequest_headers sess service options = inr headers →
  let params :=
    session.HeaderParam {[ "headers" := headers ]} :: (session.ArgParam <$> args) in
  session.DoRequest x sess service method args options w =
    (session.Call_error (session.events w1) client method params,
     session.mkWorld (session.xmlRpcClients w1)
       (session.events w1 ++ [session.CallEvent client method params])) ∧
  headers !! "authenticate" =
    Some (session.StringMap
            {[ "username" := session.UserName sess;
               "apiKey" := session.APIKey sess ]}) ∧
  (∀ endpoint debug,
     let options42 := sl.mkOptions (Some 42) EmptyString EmptyString None None in
     let headers42 : gmap string session.HeaderValue :=
       {[ "authenticate" := session.StringMap {[ "username" := "u"; "apiKey" := "k" ]};
          "WidgetInitParameters" := session.IntMap {[ "id" := 42 ]} ]} in
     session.DoRequest_headers (session.mkSession endpoint "u" "k" debug)
       "Widget" options42 = inr headers42 ∧
     session.DoRequest_params (Arg:=Arg) headers42 [] =
       [session.HeaderParam {[ "headers" := headers42 ]}]).
Proof.
  intros Hc Hh params. split_and!.
  - rewrite (DoRequest_dispatch _ _ _ _ _ _ _ _ _ _ Hc Hh).
    by rewrite DoRequest_params_eq.
  - by apply (lookup_DoRequest_headers_authenticate _ service options).
  - intros endpoint debug options42 headers42. split; reflexivity.
Qed.

End Envelope.

(** ** The mask, from the setter to the header map *)

Section MaskPipeline.

Context {Arg : Type} {imports : session.Imports Arg} {SessionPtr : Type}.

Implicit Types (r : services.Compliance_Report_Type SessionPtr).
Implicit Types (sess : session.Session) (service m : string).
Implicit Types (headers : gmap string session.HeaderValue).

Lemma Options_Mask r m :
  sl.Mask (services.Options (services.Mask r m)) = services.Mask_wrap m.
Proof. done. Qed.

(** C1, as the code has it.  A mask with a bracket and without the prefix
    [mask[] reaches the header map as [mask[m]]; a mask with the prefix
    reaches it as it is; a mask without a bracket that is not empty is left
    as it is by the setter and wrapped by [DoRequest], and reaches the header
    map as [mask[m]]; for the empty mask there is no entry.  The setter's and
    [DoRequest]'s wrapping agree exactly on the masks that have the prefix or
    a bracket; each of them applied twice is the same as applied once. *)
Theorem mask_pipeline r sess service m headers :
  session.DoRequest_headers sess service (services.Options (services.Mask r m))
    = inr headers →
  (HasPrefix m "mask[" = false → Contains m "[" = true →
     headers !! "SoftLayer_ObjectMask" =
     Some (session.StringMap {[ "mask" := "mask[" +:+ m +:+ "]" ]})) ∧
  (HasPrefix m "mask[" = true →
     headers !! "SoftLayer_ObjectMask" =
     Some (session.StringMap {[ "mask" := m ]})) ∧
  (Contains m "[" = false → m ≠ EmptyString →
     sl.Mask (services.Options (services.Mask r m)) = m ∧
     headers !! "SoftLayer_ObjectMask" =
     Some (session.StringMap {[ "mask" := "mask[" +:+ m +:+ "]" ]})) ∧
  (m = EmptyString → headers !! "SoftLayer_ObjectMask" = None) ∧
  (services.Mask_wrap m = session.mask_wrap m ↔
     HasPrefix m "mask[" = true ∨ Contains m "[" = true) ∧
  services.Mask_wrap (services.Mask_wrap m) = services.Mask_wrap m ∧
  session.mask_wrap (session.mask_wrap m) = session.mask_wrap m.
Proof.
  intros Hh.
  apply lookup_DoRequest_headers_ObjectMask in Hh. rewrite Options_Mask in Hh.
  rewrite mask_wrap_Mask_wrap in Hh.
  split_and!.
  - intros Hp Hc. rewrite Hh.
    rewrite decide_True; [by rewrite mask_wrap_no_prefix|].
    rewrite Mask_wrap_bracket by done. apply Sprintf_mask_nonempty.
  - intros Hp. rewrite Hh.
    rewrite decide_True; [by rewrite mask_wrap_prefix|].
    rewrite Mask_wrap_prefix by done. by intros ->.
  - intros Hc Hm. rewrite Options_Mask. split; [by apply Mask_wrap_plain|].
    rewrite Hh. rewrite decide_True by (by rewrite Mask_wrap_plain).
    rewrite mask_wrap_no_prefix; [done|].
    destruct (HasPrefix m "mask[") eqn:Hp; [|done].
    apply HasPrefix_mask_Contains in Hp. congruence.
  - intros ->. rewrite Hh. by rewrite decide_False by (by intros []).
  - apply Mask_wrap_mask_wrap.
  - apply Mask_wrap_idempotent.
  - apply mask_wrap_idempotent.
Qed.

End MaskPipeline.

(** ** The client pool and the errors *)

Section Pool.

Context {Arg : Type} {imports : session.Imports Arg}.

Implicit Types (x : session.XmlRpcTransport) (sess : session.Session).
Implicit Types (service method : string) (options : sl.Options) (args : list Arg).
Implicit Types (headers : gmap string session.HeaderValue) (w : session.World Arg).
Implicit Types (client : session.Client).

Lemma DoRequest_client_hit x sess service w client :
  session.xmlRpcClients w !! service = Some client →
  session.DoRequest_client x sess service w = (inr client, w).
Proof. intros Hp. unfold session.DoRequest_client. by rewrite Hp. Qed.

Lemma DoRequest_client_miss_error x sess service w err :
  session.xmlRpcClients w !! service = None →
  session.NewClient_error (Sprintf_url (session.Endpoint sess) service)
    (session.DoRequest_roundTripper sess) (session.DoRequest_timeout x) = Some err →
  session.DoRequest_client x sess service w =
  (inl (session.Errorf_create service err),
   session.mkWorld (session.xmlRpcClients w)
     (session.events w ++
        [session.NewClientEvent (Sprintf_url (session.Endpoint sess) service)
           (session.DoRequest_roundTripper sess) (session.DoRequest_timeout x)])).
Proof.
  intros Hp He. unfold session.DoRequest_client, session.NewClient.
  by rewrite Hp, He.
Qed.

Lemma DoRequest_client_miss_ok x sess service w :
  session.xmlRpcClients w !! service = None →
  session.NewClient_error (Sprintf_url (session.Endpoint sess) service)
    (session.DoRequest_roundTripper sess) (session.DoRequest_timeout x) = None →
  let client :=
    session.mkClient (length (session.events w))
      (Sprintf_url (session.Endpoint sess) service)
      (session.DoRequest_roundTripper sess) (session.DoRequest_timeout x) in
  session.DoRequest_client x sess service w =
  (inr client,
   session.mkWorld (<[service := client]> (session.xmlRpcClients w))
     (session.events w ++
        [session.NewClientEvent (Sprintf_url (session.Endpoint sess) service)
           (session.DoRequest_roundTripper sess) (session.DoRequest_timeout x)])).
Proof.
  intros Hp He. unfold session.DoRequest_client, session.NewClient.
  by rewrite Hp, He.
Qed.

(** After the client is there, [DoRequest] leaves the pool as it is and adds
    to the trace nothing, or the one call on this client. *)
Lemma DoRequest_after_client x sess service method args options w client w1 :
  session.DoRequest_client x sess service w = (inr client, w1) →
  ∃ rest,
    (session.DoRequest x sess service method args options w).2 =
      session.mkWorld (session.xmlRpcClients w1) (session.events w1 ++ rest) ∧
    (rest = [] ∨ ∃ params, rest = [session.CallEvent client method params]).
Proof.
  intros Hc. unfold session.DoRequest. rewrite Hc.
  destruct (session.DoRequest_headers sess service options) as [err|headers].
  - exists []. rewrite app_nil_r. split; [by destruct w1|by left].
  - eexists. split; [done|]. right. eauto.
Qed.

Lemma called_app (t1 t2 : list (session.Event Arg)) :
  session.called (t1 ++ t2) = session.called t1 ++ session.called t2.
Proof.
  induction t1 as [|[] t1 IH]; simpl; [done| |]; by rewrite ?IH.
Qed.

End Pool.

Section Requests.

Context {Arg : Type} {imports : session.Imports Arg}.

Implicit Types (x : session.XmlRpcTransport) (sess : session.Session).
Implicit Types (service method : string) (options : sl.Options) (args : list Arg).
Implicit Types (headers : gmap string session.HeaderValue) (w : session.World Arg).
Implicit Types (client : session.Client).

(** Getting the client makes no call. *)
Lemma DoRequest_client_called x sess service w :
  session.called (session.events (session.DoRequest_client x sess service w).2) =
  session.called (session.events w).
Proof.
  unfold session.DoRequest_client, session.NewClient.
  destruct (session.xmlRpcClients w !! service); [done|].
  destruct (session.NewClient_error _ _ _); simpl;
    rewrite called_app; simpl; by rewrite app_nil_r.
Qed.

(** There is a client when the pool has one or the creation succeeds. *)
Lemma DoRequest_client_inr x sess service w :
  is_Some (session.xmlRpcClients w !! service) ∨
  session.NewClient_error (Sprintf_url (session.Endpoint sess) service)
    (session.DoRequest_roundTripper sess) (session.DoRequest_timeout x) = None →
  ∃ client w1, session.DoRequest_client x sess service w = (inr client, w1).
Proof.
  destruct (session.xmlRpcClients w !! service) as [client|] eqn:Hp.
  - intros _. exists client, w. by apply DoRequest_client_hit.
  - intros [[? [=]]|He]. eexists _, _. by apply DoRequest_client_miss_ok.
Qed.

(** A request that fails on its header map makes no call. *)
Lemma DoRequest_headers_inl x sess service method args options w err :
  session.DoRequest_headers sess service options = inl err →
  session.called (session.events (session.DoRequest x sess service method args options w).2)
    = session.called (session.events w) ∧
  is_Some (session.DoRequest x sess service method args options w).1 ∧
  (is_Some (session.xmlRpcClients w !! service) ∨
   session.NewClient_error (Sprintf_url (session.Endpoint sess) service)
     (session.DoRequest_roundTripper sess) (session.DoRequest_timeout x) = None →
   (session.DoRequest x sess service method args options w).1 = Some err).
Proof.
  intros Hh.
  pose proof (DoRequest_client_called x sess service w) as Hcalled.
  split_and!.
  - unfold session.DoRequest.
    destruct (session.DoRequest_client x sess service w) as [[e|client] w1];
      [done|]. by rewrite Hh.
  - unfold session.DoRequest.
    destruct (session.DoRequest_client x sess service w) as [[e|client] w1];
      [by eexists|]. rewrite Hh. by eexists.
  - intros (client & w1 & Hc)%(DoRequest_client_inr x).
    by rewrite (DoRequest_headers_error _ _ _ _ _ _ _ _ _ _ Hc Hh).
Qed.

Lemma DoRequest_headers_filter_error sess service options err :
  sl.Filter options ≠ EmptyString →
  json.Unmarshal session.json_scan (sl.Filter options) ∅ = inl err →
  session.DoRequest_headers sess service options = inl (session.Errorf_filter err).
Proof.
  intros Hf Hu. unfold session.DoRequest_headers, session.headers_filter.
  rewrite decide_True by done. by rewrite Hu.
Qed.


(** C5, as the code has it.  When the filter is not empty and is not a JSON
    text, [DoRequest] returns an error and makes no call.  The error is the
    one of the filter, [Error encoding object filter: ...], when the pool has
    a client for the service or the creation of one succeeds: the client
    comes first, and the failure to create it is the error otherwise. *)
Theorem malformed_filter_no_call x sess service method args options w err :
  sl.Filter options ≠ EmptyString →
  session.json_scan (sl.Filter options) = inl err →
  session.called (session.events (session.DoRequest x sess service method args options w).2)
    = session.called (session.events w) ∧
  is_Some (session.DoRequest x sess service method args options w).1 ∧
  (is_Some (session.xmlRpcClients w !! service) ∨
   session.NewClient_error (Sprintf_url (session.Endpoint sess) service)
     (session.DoRequest_roundTripper sess) (session.DoRequest_timeout x) = None →
   (session.DoRequest x sess service method args options w).1 =
   Some ("Error encoding object filter: " +:+ err)).
Proof.
  intros Hf Hs. apply DoRequest_headers_inl.
  apply DoRequest_headers_filter_error; [done|].
  unfold json.Unmarshal. by rewrite Hs.
Qed.


(** C6. When the pool has no client for the service and [xmlrpc.NewClient]
    fails, [DoRequest] returns the error of the creation at once: the pool is
    as it was, without an entry for the service, and nothing but the call of
    [xmlrpc.NewClient] is done.  The next request for the service calls
    [xmlrpc.NewClient] again. *)
Theorem creation_failure_leaves_pool x sess service method args options w err :
  session.xmlRpcClients w !! service = None →
  session.NewClient_error (Sprintf_url (session.Endpoint sess) service)
    (session.DoRequest_roundTripper sess) (session.DoRequest_timeout x) = Some err →
  let result := session.DoRequest x sess service method args options w in
  result.1 =
    Some ("Could not create an xmlrpc client for " +:+ service +:+ ": " +:+ err) ∧
  session.xmlRpcClients result.2 = session.xmlRpcClients w ∧
  session.xmlRpcClients result.2 !! service = None ∧
  session.events result.2 =
    session.events w ++
    [session.NewClientEvent (Sprintf_url (session.Endpoint sess) service)
       (session.DoRequest_roundTripper sess) (session.DoRequest_timeout x)] ∧
  (∀ x' sess' method' args' options',
     ∃ rest,
       session.events
         (session.DoRequest x' sess' service method' args' options' result.2).2 =
       session.events result.2 ++
       session.NewClientEvent (Sprintf_url (session.Endpoint sess') service)
         (session.DoRequest_roundTripper sess') (session.DoRequest_timeout x')
       :: rest).
Proof.
  intros Hp He result.
  pose proof (DoRequest_client_miss_error x sess service w err Hp He) as Hc.
  assert (result = (Some (session.Errorf_create service err),
                    session.mkWorld (session.xmlRpcClients w)
                      (session.events w ++
                         [session.NewClientEvent
                            (Sprintf_url (session.Endpoint sess) service)
                            (session.DoRequest_roundTripper sess)
                            (session.DoRequest_timeout x)]))) as ->.
  { unfold result. by apply DoRequest_client_error. }
  simpl. split_and!; try done.
  intros x' sess' method' args' options'.
  set (w1 := session.mkWorld _ _).
  assert (session.xmlRpcClients w1 !! service = None) as Hp1 by done.
  destruct (session.NewClient_error (Sprintf_url (session.Endpoint sess') service)
              (session.DoRequest_roundTripper sess') (session.DoRequest_timeout x'))
    as [err'|] eqn:He'.
  - exists [].
    by rewrite (DoRequest_client_error _ _ _ _ _ _ _ _ _
                  (DoRequest_client_miss_error x' sess' service w1 err' Hp1 He')).
  - pose proof (DoRequest_client_miss_ok x' sess' service w1 Hp1 He') as Hc'.
    destruct (DoRequest_after_client _ _ _ method' args' options' _ _ _ Hc')
      as (rest & -> & _).
    exists rest. simpl. by rewrite <- app_assoc.
Qed.


End Requests.

(** ** The setters and the struct they are called on *)

Section Setters.

Context {SessionPtr : Type}.

Implicit Types (h : sl_ptr.Heap) (p : option sl_ptr.addr) (o : sl_ptr.Options).
Implicit Types (r : services_ptr.Compliance_Report_Type SessionPtr).
Implicit Types (s : services_ptr.Setter).

Lemma address_of_fresh (v : Z) h :
  h !! (services_ptr.address_of v h).1 = None.
Proof.
  unfold services_ptr.address_of. simpl.
  apply not_elem_of_dom, is_fresh.
Qed.

(** A new variable leaves the others as they are. *)
Lemma deref_address_of_valid (v : Z) h p :
  sl_ptr.valid h p →
  sl_ptr.deref (services_ptr.address_of v h).2 p = sl_ptr.deref h p.
Proof.
  destruct p as [a|]; [|done]. intros [z Hz].
  unfold services_ptr.address_of. simpl. rewrite lookup_insert_ne; [done|].
  intros <-. pose proof (address_of_fresh v h) as Hfresh.
  unfold services_ptr.address_of in Hfresh. simpl in *. congruence.
Qed.

Lemma valid_address_of (v : Z) h p :
  sl_ptr.valid h p → sl_ptr.valid (services_ptr.address_of v h).2 p.
Proof.
  destruct p as [a|]; [|done]. intros Hz.
  unfold services_ptr.address_of. simpl.
  rewrite lookup_insert. by case_decide.
Qed.

Lemma valid_address_of_new (v : Z) h :
  sl_ptr.valid (services_ptr.address_of v h).2 (Some (services_ptr.address_of v h).1).
Proof. unfold services_ptr.address_of. simpl. by rewrite lookup_insert_eq. Qed.

Lemma deref_insert_fresh (v : Z) h p :
  sl_ptr.valid h p →
  sl_ptr.deref (<[fresh (dom h) := v]> h) p = sl_ptr.deref h p.
Proof. apply deref_address_of_valid. Qed.

(** A setter allocates at most one variable. *)
Lemma call_heap s r h :
  (services_ptr.call s r h).2 = h ∨
  ∃ v, (services_ptr.call s r h).2 = (services_ptr.address_of v h).2.
Proof. destruct s; simpl; eauto. Qed.

Lemma load_call_other s r h o :
  sl_ptr.wf h o →
  sl_ptr.load (services_ptr.call s r h).2 o = sl_ptr.load h o ∧
  sl_ptr.wf (services_ptr.call s r h).2 o.
Proof.
  intros (Hid & Hlimit & Hoffset).
  destruct (call_heap s r h) as [->|[v ->]]; [done|].
  split.
  - unfold sl_ptr.load. by rewrite !deref_address_of_valid.
  - split_and!; by apply valid_address_of.
Qed.

Lemma load_call s r h :
  sl_ptr.wf h (services_ptr.Options r) →
  services_ptr.load (services_ptr.call s r h).2 (services_ptr.call s r h).1
    = services_ptr.call_loaded s (services_ptr.load h r) ∧
  sl_ptr.wf (services_ptr.call s r h).2 (services_ptr.Options (services_ptr.call s r h).1).
Proof.
  intros (Hid & Hlimit & Hoffset).
  destruct s; simpl; (split; [|split_and!]); simpl;
    try done; try (by apply valid_address_of); try apply valid_address_of_new.
  all: unfold services_ptr.load, sl_ptr.load; simpl;
    unfold services.Id, services.Limit, services.Offset; simpl;
    rewrite !deref_insert_fresh by done; by rewrite lookup_insert_eq.
Qed.

(** C8. A setter returns a struct that has the field set from the argument
    and the other fields as the receiver has them, and leaves what the
    receiver holds, and what any other struct holds, as it was: it stores the
    address of a new variable and writes to no variable that was there.  So
    of two structs made from one base, neither sees the field set in the
    other, and the base sees neither. *)
Theorem setters_non_destructive s r h :
  sl_ptr.wf h (services_ptr.Options r) →
  let r' := (services_ptr.call s r h).1 in
  let h' := (services_ptr.call s r h).2 in
  services_ptr.load h' r' = services_ptr.call_loaded s (services_ptr.load h r) ∧
  services_ptr.load h' r = services_ptr.load h r ∧
  (∀ r0, sl_ptr.wf h (services_ptr.Options r0) →
     services_ptr.load h' r0 = services_ptr.load h r0) ∧
  (∀ s2,
     let r2 := (services_ptr.call s2 r h').1 in
     let h2 := (services_ptr.call s2 r h').2 in
     services_ptr.load h2 r' = services_ptr.call_loaded s (services_ptr.load h r) ∧
     services_ptr.load h2 r2 = services_ptr.call_loaded s2 (services_ptr.load h r) ∧
     services_ptr.load h2 r = services_ptr.load h r).
Proof.
  intros Hwf r' h'.
  destruct (load_call s r h Hwf) as [Hload Hwf'].
  assert (∀ r0, sl_ptr.wf h (services_ptr.Options r0) →
            services_ptr.load h' r0 = services_ptr.load h r0) as Hframe.
  { intros r0 Hwf0. unfold services_ptr.load. f_equal.
    by apply load_call_other. }
  split_and!; [done|by apply Hframe|done|].
  intros s2 r2 h2.
  assert (sl_ptr.wf h' (services_ptr.Options r)) as Hwfr by (by apply load_call_other).
  destruct (load_call s2 r h' Hwfr) as [Hload2 Hwf2].
  split_and!.
  - rewrite <- Hload. unfold services_ptr.load. f_equal. by apply load_call_other.
  - unfold r2, h2. rewrite Hload2. by rewrite Hframe.
  - rewrite <- (Hframe r Hwf). unfold services_ptr.load. f_equal.
    by apply load_call_other.
Qed.

End Setters.

(** ** Two invocations for a service that has no client yet *)

Section Steps.

Context {Arg : Type} {imports : session.Imports Arg}.

Implicit Types (q : sched.Request Arg) (w : session.World Arg) (pc : sched.Pc).

(** An invocation on its own is [DoRequest]: four steps take it from the
    lookup to its return. *)
Lemma steps_DoRequest q w :
  sched.steps 4 q sched.AtLookup w =
  (sched.Returned
     (session.DoRequest (sched.x q) (sched.sess q) (sched.service q)
        (sched.method q) (sched.args q) (sched.options q) w).1,
   (session.DoRequest (sched.x q) (sched.sess q) (sched.service q)
      (sched.method q) (sched.args q) (sched.options q) w).2).
Proof.
  unfold session.DoRequest, session.DoRequest_client. simpl.
  destruct (session.xmlRpcClients w !! sched.service q) as [client|]; simpl.
  - by destruct (session.DoRequest_headers _ _ _).
  - destruct (session.NewClient _ _ _ _) as [[err|client] w1]; simpl; [done|].
    by destruct (session.DoRequest_headers _ _ _).
Qed.

(** A step that does not stay at the return comes closer to it. *)
Lemma step_rank q pc w :
  (sched.rank (sched.step q pc w).1 ≤ pred (sched.rank pc))%nat.
Proof.
  destruct pc; simpl.
  - destruct (session.xmlRpcClients w !! sched.service q); simpl; lia.
  - destruct (session.NewClient _ _ _ _) as [[|] ?]; simpl; lia.
  - lia.
  - destruct (session.DoRequest_headers _ _ _); simpl; lia.
  - lia.
Qed.

Lemma rank_returned pc : sched.rank pc = 0%nat → sched.returned pc = true.
Proof. by destruct pc. Qed.

(** Two invocations return under every schedule that gives four steps to
    each of them. *)
Lemma run_returns (q1 q2 : sched.Request Arg) (schedule : list bool)
    (c : sched.Config Arg) :
  (sched.rank (sched.pc1 (sched.run q1 q2 schedule c))
     ≤ sched.rank (sched.pc1 c) - sched.turns true schedule)%nat ∧
  (sched.rank (sched.pc2 (sched.run q1 q2 schedule c))
     ≤ sched.rank (sched.pc2 c) - sched.turns false schedule)%nat.
Proof.
  revert c. unfold sched.turns.
  induction schedule as [|[] schedule IH]; intros c; cbn [sched.run].
  - simpl. lia.
  - pose proof (step_rank q1 (sched.pc1 c) (sched.world c)) as Hstep.
    destruct (sched.step q1 (sched.pc1 c) (sched.world c)) as [pc w].
    rewrite filter_cons_True by done. rewrite filter_cons_False by done.
    destruct (IH (sched.mkConfig pc (sched.pc2 c) w)) as [IH1 IH2].
    simpl in *. lia.
  - pose proof (step_rank q2 (sched.pc2 c) (sched.world c)) as Hstep.
    destruct (sched.step q2 (sched.pc2 c) (sched.world c)) as [pc w].
    rewrite filter_cons_False by done. rewrite filter_cons_True by done.
    destruct (IH (sched.mkConfig (sched.pc1 c) pc w)) as [IH1 IH2].
    simpl in *. lia.
Qed.

Lemma run_returned (q1 q2 : sched.Request Arg) (schedule : list bool)
    (w : session.World Arg) :
  (4 ≤ sched.turns true schedule)%nat →
  (4 ≤ sched.turns false schedule)%nat →
  let c := sched.run q1 q2 schedule (sched.mkConfig sched.AtLookup sched.AtLookup w) in
  sched.returned (sched.pc1 c) = true ∧ sched.returned (sched.pc2 c) = true.
Proof.
  intros H1 H2 c.
  destruct (run_returns q1 q2 schedule
              (sched.mkConfig sched.AtLookup sched.AtLookup w)) as [Hr1 Hr2].
  fold c in Hr1, Hr2. simpl in Hr1, Hr2.
  split; apply rank_returned; lia.
Qed.

Lemma created_app (n : nat) (t1 t2 : list (session.Event Arg)) :
  session.created n (t1 ++ t2) =
  session.created n t1 ++ session.created (n + length t1) t2.
Proof.
  revert n. induction t1 as [|e t1 IH]; intros n; simpl.
  - by rewrite Nat.add_0_r.
  - rewrite IH. replace (S n + length t1)%nat with (n + S (length t1))%nat by lia.
    destruct e; [|done]. by destruct (session.NewClient_error _ _ _).
Qed.

End Steps.

Section Race.

Context {Arg : Type} {imports : session.Imports Arg}.

Variables (q1 q2 : sched.Request Arg) (w0 : session.World Arg).

(** The two invocations are for one service, which has no client yet, and
    the creation of a client succeeds for either. *)
Hypothesis same_service : sched.service q2 = sched.service q1.
Hypothesis no_client : session.xmlRpcClients w0 !! sched.service q1 = None.
Hypothesis creation1 :
  session.NewClient_error
    (Sprintf_url (session.Endpoint (sched.sess q1)) (sched.service q1))
    (session.DoRequest_roundTripper (sched.sess q1))
    (session.DoRequest_timeout (sched.x q1)) = None.
Hypothesis creation2 :
  session.NewClient_error
    (Sprintf_url (session.Endpoint (sched.sess q2)) (sched.service q2))
    (session.DoRequest_roundTripper (sched.sess q2))
    (session.DoRequest_timeout (sched.x q2)) = None.

Local Abbreviation sv := (sched.service q1).
Local Abbreviation clients_of trace :=
  (session.created (length (session.events w0)) trace).

Implicit Types (w : session.World Arg) (pc : sched.Pc).
Implicit Types (trace : list (session.Event Arg)) (clients : list session.Client).
Implicit Types (pool : gmap string session.Client).












End Race.

(** * The properties on the stand-ins *)

(** C1 at [id,children[id]]: the setter wraps the mask, [DoRequest] leaves it. *)
Lemma mask_pipeline_witness :
  let headers : gmap string session.HeaderValue :=
    {[ "authenticate" := stub.authenticate;
       "SoftLayer_ObjectMask" :=
         session.StringMap {[ "mask" := "mask[id,children[id]]" ]} ]} in
  session.DoRequest_headers (imports := stub.imports) stub.sess "Widget"
    (services.Options (services.Mask stub.service "id,children[id]")) = inr headers ∧
  headers !! "SoftLayer_ObjectMask" =
    Some (session.StringMap {[ "mask" := "mask[" +:+ "id,children[id]" +:+ "]" ]}).
Proof.
  intros headers.
  assert (session.DoRequest_headers (imports := stub.imports) stub.sess "Widget"
            (services.Options (services.Mask stub.service "id,children[id]"))
          = inr headers) as Hh by reflexivity.
  split; [exact Hh|].
  apply (proj1 (mask_pipeline (imports := stub.imports) stub.service stub.sess
                  "Widget" "id,children[id]" headers Hh)); reflexivity.
Defined.

(** C1 as stated fails at the mask [id], which has neither the prefix nor a
    bracket: the setter leaves it, and [DoRequest] wraps it.  The header map
    has [mask[id]] and not [id], and the two wrappings differ at [id]. *)
Lemma mask_pipeline_counterexample :
  let headers : gmap string session.HeaderValue :=
    {[ "authenticate" := stub.authenticate;
       "SoftLayer_ObjectMask" := session.StringMap {[ "mask" := "mask[id]" ]} ]} in
  Contains "id" "[" = false ∧
  session.DoRequest_headers (imports := stub.imports) stub.sess "Widget"
    (services.Options (services.Mask stub.service "id")) = inr headers ∧
  headers !! "SoftLayer_ObjectMask" ≠ Some (session.StringMap {[ "mask" := "id" ]}) ∧
  services.Mask_wrap "id" = "id" ∧
  session.mask_wrap "id" = "mask[id]" ∧
  services.Mask_wrap "id" ≠ session.mask_wrap "id".
Proof.
  intros headers. split_and!; try reflexivity.
  - intros Heq. vm_compute in Heq. discriminate Heq.
  - intros Heq. vm_compute in Heq. discriminate Heq.
Qed.

(** C2 at the limit 10 without an offset. *)
Lemma resultLimit_entry_witness :
  let headers : gmap string session.HeaderValue :=
    {[ "authenticate" := stub.authenticate;
       "resultLimit" := session.IntMap {[ "limit" := 10; "offset" := 0 ]} ]} in
  session.DoRequest_headers (imports := stub.imports) stub.sess "Widget"
    (stub.with_limit 10 None) = inr headers ∧
  headers !! "resultLimit" =
    Some (session.IntMap {[ "limit" := 10; "offset" := 0 ]}).
Proof.
  intros headers.
  assert (session.DoRequest_headers (imports := stub.imports) stub.sess "Widget"
            (stub.with_limit 10 None) = inr headers) as Hh by reflexivity.
  split; [exact Hh|].
  apply (proj1 (resultLimit_entry (imports := stub.imports) stub.sess "Widget"
                  (stub.with_limit 10 None) headers Hh)); reflexivity.
Defined.

(** C3 at the id 42. *)
Lemma InitParameters_entry_witness :
  let headers : gmap string session.HeaderValue :=
    {[ "authenticate" := stub.authenticate;
       "WidgetInitParameters" := session.IntMap {[ "id" := 42 ]} ]} in
  session.DoRequest_headers (imports := stub.imports) stub.sess "Widget"
    (stub.with_id 42) = inr headers ∧
  headers !! ("Widget" +:+ "InitParameters") = Some (session.IntMap {[ "id" := 42 ]}).
Proof.
  intros headers.
  assert (session.DoRequest_headers (imports := stub.imports) stub.sess "Widget"
            (stub.with_id 42) = inr headers) as Hh by reflexivity.
  split; [exact Hh|].
  apply (proj1 (InitParameters_entry (imports := stub.imports) stub.sess "Widget"
                  (stub.with_id 42) headers Hh)); reflexivity.
Defined.

(** C4 at the first request for [Widget], with the one argument 7. *)
Lemma params_headers_first_witness :
  let headers : gmap string session.HeaderValue :=
    {[ "authenticate" := stub.authenticate;
       "WidgetInitParameters" := session.IntMap {[ "id" := 42 ]} ]} in
  let w1 : session.World Z :=
    session.mkWorld {[ "Widget" := stub.client0 ]}
      [session.NewClientEvent "https://api.example.com/Widget" None 30000000000] in
  let params : list (session.Param Z) :=
    [session.HeaderParam {[ "headers" := headers ]}; session.ArgParam 7] in
  session.DoRequest_client (imports := stub.imports) stub.transport stub.sess
    "Widget" stub.start = (inr stub.client0, w1) ∧
  session.DoRequest_headers (imports := stub.imports) stub.sess "Widget"
    (stub.with_id 42) = inr headers ∧
  session.DoRequest (imports := stub.imports) stub.transport stub.sess
    "Widget" "getObject" [7] (stub.with_id 42) stub.start =
  (None,
   session.mkWorld {[ "Widget" := stub.client0 ]}
     [session.NewClientEvent "https://api.example.com/Widget" None 30000000000;
      session.CallEvent stub.client0 "getObject" params]).
Proof.
  intros headers w1 params.
  assert (session.DoRequest_client (imports := stub.imports) stub.transport stub.sess
            "Widget" stub.start = (inr stub.client0, w1)) as Hc by reflexivity.
  assert (session.DoRequest_headers (imports := stub.imports) stub.sess "Widget"
            (stub.with_id 42) = inr headers) as Hh by reflexivity.
  split; [exact Hc|]. split; [exact Hh|].
  apply (proj1 (params_headers_first (imports := stub.imports) stub.transport
                  stub.sess "Widget" "getObject" [7] (stub.with_id 42) stub.start
                  stub.client0 w1 headers Hc Hh)).
Defined.

(** C5 at the filter [{], which is no JSON text: the filter's error, after
    the client has been created, and no call. *)
Lemma malformed_filter_no_call_witness :
  sl.Filter (stub.with_filter "{") ≠ EmptyString ∧
  session.json_scan (Imports := stub.imports) (sl.Filter (stub.with_filter "{"))
    = inl "invalid JSON text" ∧
  session.called
    (session.events
       (session.DoRequest (imports := stub.imports) stub.transport stub.sess
          "Widget" "getObject" [] (stub.with_filter "{") stub.start).2)
    = session.called (session.events stub.start) ∧
  (session.DoRequest (imports := stub.imports) stub.transport stub.sess
     "Widget" "getObject" [] (stub.with_filter "{") stub.start).1 =
  Some ("Error encoding object filter: " +:+ "invalid JSON text").
Proof.
  assert (sl.Filter (stub.with_filter "{") ≠ EmptyString) as Hf by done.
  assert (session.json_scan (Imports := stub.imports)
            (sl.Filter (stub.with_filter "{")) = inl "invalid JSON text") as Hs
    by reflexivity.
  pose proof (malformed_filter_no_call (imports := stub.imports) stub.transport
                stub.sess "Widget" "getObject" [] (stub.with_filter "{") stub.start
                "invalid JSON text" Hf Hs) as (Hcalled & _ & Herr).
  split; [exact Hf|]. split; [exact Hs|]. split; [exact Hcalled|].
  apply Herr. right. reflexivity.
Defined.

(** C5 as stated fails for the first request of a service when the client
    cannot be created: with the endpoint [:] and the filter [{], the error
    is the one of the creation, not the one of the filter. *)
Lemma malformed_filter_counterexample :
  sl.Filter (stub.with_filter "{") ≠ EmptyString ∧
  json.scan_text (sl.Filter (stub.with_filter "{")) = inl "invalid JSON text" ∧
  (session.DoRequest (imports := stub.imports) stub.transport stub.bad_sess
     "Widget" "getObject" [] (stub.with_filter "{") stub.start).1 =
  Some "Could not create an xmlrpc client for Widget: missing protocol scheme" ∧
  HasPrefix "Could not create an xmlrpc client for Widget: missing protocol scheme"
    "Error encoding object filter: " = false.
Proof. split_and!; [done|reflexivity..]. Qed.

(** C6 at the endpoint [:]: the error of the creation, and the pool as it
    was. *)
Lemma creation_failure_leaves_pool_witness :
  session.xmlRpcClients stub.start !! "Widget" = None ∧
  session.NewClient_error (Imports := stub.imports)
    (Sprintf_url (session.Endpoint stub.bad_sess) "Widget")
    (session.DoRequest_roundTripper stub.bad_sess)
    (session.DoRequest_timeout stub.transport) = Some "missing protocol scheme" ∧
  (session.DoRequest (imports := stub.imports) stub.transport stub.bad_sess
     "Widget" "getObject" [] (stub.with_id 42) stub.start).1 =
  Some ("Could not create an xmlrpc client for " +:+ "Widget" +:+ ": " +:+
        "missing protocol scheme") ∧
  session.xmlRpcClients
    (session.DoRequest (imports := stub.imports) stub.transport stub.bad_sess
       "Widget" "getObject" [] (stub.with_id 42) stub.start).2
  = session.xmlRpcClients stub.start.
Proof.
  assert (session.xmlRpcClients stub.start !! "Widget" = None) as Hp by reflexivity.
  assert (session.NewClient_error (Imports := stub.imports)
            (Sprintf_url (session.Endpoint stub.bad_sess) "Widget")
            (session.DoRequest_roundTripper stub.bad_sess)
            (session.DoRequest_timeout stub.transport)
          = Some "missing protocol scheme") as He by reflexivity.
  pose proof (creation_failure_leaves_pool (imports := stub.imports) stub.transport
                stub.bad_sess "Widget" "getObject" [] (stub.with_id 42) stub.start
                "missing protocol scheme" Hp He) as (Herr & Hpool & _).
  split; [exact Hp|]. split; [exact He|]. split; [exact Herr|exact Hpool].
Defined.




(** C8 at a struct whose [Id] points to a variable that holds 7: after
    [Id(5)] the new struct has the id 5 and the receiver still has 7. *)
Lemma setters_non_destructive_witness :
  let h : sl_ptr.Heap := {[ 1%positive := 7 ]} in
  let r : services_ptr.Compliance_Report_Type unit :=
    services_ptr.mkService None
      (sl_ptr.mkOptions (Some 1%positive) EmptyString EmptyString None None) in
  sl_ptr.wf h (services_ptr.Options r) ∧
  sl.Id (services.Options
           (services_ptr.load (services_ptr.call (services_ptr.SetId 5) r h).2
              (services_ptr.call (services_ptr.SetId 5) r h).1)) = Some 5 ∧
  sl.Id (services.Options
           (services_ptr.load (services_ptr.call (services_ptr.SetId 5) r h).2 r))
    = Some 7.
Proof.
  intros h r.
  assert (sl_ptr.wf h (services_ptr.Options r)) as Hwf.
  { split_and!; [by exists 7|done|done]. }
  pose proof (setters_non_destructive (services_ptr.SetId 5) r h Hwf)
    as (Hnew & Hold & _).
  split; [exact Hwf|]. split.
  - rewrite Hnew. reflexivity.
  - rewrite Hold. reflexivity.
Defined.



(** * Further properties of the code *)

(** ** The keys of the header map *)

Section HeaderKeys.

Context {Arg : Type} {imports : session.Imports Arg}.

Implicit Types (sess : session.Session) (service : string) (options : sl.Options).
Implicit Types (headers : gmap string session.HeaderValue).

Lemma dom_headers_id service options headers :
  dom (session.headers_id service options headers) =@{gset string}
  (if sl.Id options is Some _ then {[Sprintf_InitParameters service]} else ∅)
  ∪ dom headers.
Proof.
  unfold session.headers_id. destruct (sl.Id options).
  - by rewrite dom_insert_L.
  - by rewrite union_empty_l_L.
Qed.

Lemma dom_headers_mask options headers :
  dom (session.headers_mask options headers) =@{gset string}
  (if decide (sl.Mask options = EmptyString) then ∅ else {["SoftLayer_ObjectMask"]})
  ∪ dom headers.
Proof.
  unfold session.headers_mask.
  repeat case_decide; try done;
    first [by rewrite dom_insert_L | by rewrite union_empty_l_L].
Qed.

Lemma dom_headers_filter service options headers headers' :
  session.headers_filter service options headers = inr headers' →
  dom headers' =@{gset string}
  (if decide (sl.Filter options = EmptyString) then ∅
   else {[Sprintf_ObjectFilter service]})
  ∪ dom headers.
Proof.
  unfold session.headers_filter. intros H. repeat case_decide; try done.
  - destruct (json.Unmarshal _ _ _); simplify_eq. by rewrite dom_insert_L.
  - simplify_eq. by rewrite union_empty_l_L.
Qed.

Lemma dom_headers_limit options headers :
  dom (session.headers_limit options headers) =@{gset string}
  (if sl.Limit options is Some _ then {["resultLimit"]} else ∅) ∪ dom headers.
Proof.
  unfold session.headers_limit. destruct (sl.Limit options).
  - by rewrite dom_insert_L.
  - by rewrite union_empty_l_L.
Qed.

(** A key that is not there yet makes the map one entry larger. *)
Lemma size_headers_id service options headers :
  headers !! Sprintf_InitParameters service = None →
  size (session.headers_id service options headers) =
  ((if sl.Id options is Some _ then 1 else 0) + size headers)%nat.
Proof.
  intros Hk. unfold session.headers_id. destruct (sl.Id options); [|done].
  by rewrite map_size_insert_None.
Qed.

Lemma size_headers_mask options headers :
  headers !! "SoftLayer_ObjectMask" = None →
  size (session.headers_mask options headers) =
  ((if decide (sl.Mask options = EmptyString) then 0 else 1) + size headers)%nat.
Proof.
  intros Hk. unfold session.headers_mask. repeat case_decide; try done.
  by rewrite map_size_insert_None.
Qed.

Lemma size_headers_filter service options headers headers' :
  session.headers_filter service options headers = inr headers' →
  headers !! Sprintf_ObjectFilter service = None →
  size headers' =
  ((if decide (sl.Filter options = EmptyString) then 0 else 1) + size headers)%nat.
Proof.
  unfold session.headers_filter. intros H Hk.
  repeat case_decide; try done; [|by simplify_eq].
  destruct (json.Unmarshal _ _ _); simplify_eq. by rewrite map_size_insert_None.
Qed.

Lemma size_headers_limit options headers :
  headers !! "resultLimit" = None →
  size (session.headers_limit options headers) =
  ((if sl.Limit options is Some _ then 1 else 0) + size headers)%nat.
Proof.
  intros Hk. unfold session.headers_limit. destruct (sl.Limit options); [|done].
  by rewrite map_size_insert_None.
Qed.

(** X1. The header map has the key [authenticate] and one key for each of
    [Id], [Mask], [Filter] and [Limit] that is set, and no other key.  The
    five keys are different for every service name: the size of the map is
    one more than the number of these options that are set.  [Offset] alone
    adds nothing. *)
Theorem header_keys sess service options headers :
  session.DoRequest_headers sess service options = inr headers →
  dom headers =@{gset string}
    {["authenticate"]}
    ∪ (if sl.Id options is Some _ then {[service +:+ "InitParameters"]} else ∅)
    ∪ (if decide (sl.Mask options = EmptyString) then ∅
       else {["SoftLayer_ObjectMask"]})
    ∪ (if decide (sl.Filter options = EmptyString) then ∅
       else {[service +:+ "ObjectFilter"]})
    ∪ (if sl.Limit options is Some _ then {["resultLimit"]} else ∅) ∧
  size headers =
    (1 + (if sl.Id options is Some _ then 1 else 0)
       + (if decide (sl.Mask options = EmptyString) then 0 else 1)
       + (if decide (sl.Filter options = EmptyString) then 0 else 1)
       + (if sl.Limit options is Some _ then 1 else 0))%nat.
Proof.
  intros (headers' & Hf & ->)%DoRequest_headers_inr.
  change (service +:+ "InitParameters") with (Sprintf_InitParameters service).
  change (service +:+ "ObjectFilter") with (Sprintf_ObjectFilter service).
  split.
  - rewrite dom_headers_limit, (dom_headers_filter _ _ _ _ Hf),
      dom_headers_mask, dom_headers_id.
    unfold session.headers_authenticate. rewrite dom_singleton_L.
    apply set_eq. intros k. rewrite !elem_of_union. tauto.
  - rewrite size_headers_limit.
    2:{ rewrite (lookup_headers_filter_ne _ _ _ _ _ Hf)
          by (symmetry; apply ObjectFilter_resultLimit).
        rewrite lookup_headers_mask_ne by done.
        rewrite lookup_headers_id_ne by (symmetry; apply InitParameters_resultLimit).
        by apply lookup_headers_authenticate_ne. }
    rewrite (size_headers_filter _ _ _ _ Hf).
    2:{ rewrite lookup_headers_mask_ne by apply ObjectFilter_ObjectMask.
        rewrite lookup_headers_id_ne
          by (apply not_eq_sym, InitParameters_ObjectFilter).
        apply lookup_headers_authenticate_ne, ObjectFilter_authenticate. }
    rewrite size_headers_mask.
    2:{ rewrite lookup_headers_id_ne by (symmetry; apply InitParameters_ObjectMask).
        by apply lookup_headers_authenticate_ne. }
    rewrite size_headers_id
      by apply lookup_headers_authenticate_ne, InitParameters_authenticate.
    unfold session.headers_authenticate. rewrite map_size_singleton. lia.
Qed.

(** The error of the header map is the error of the filter. *)
Lemma DoRequest_headers_inl_form sess service options err :
  session.DoRequest_headers sess service options = inl err →
  sl.Filter options ≠ EmptyString ∧
  ∃ e, json.Unmarshal session.json_scan (sl.Filter options) ∅ = inl e ∧
       err = session.Errorf_filter e.
Proof.
  unfold session.DoRequest_headers, session.headers_filter.
  case_decide; [|done].
  destruct (json.Unmarshal _ _ _) as [e|] eqn:Hu; [|done].
  intros [= <-]. split; [done|]. by exists e.
Qed.

(** X2. Whether the header map is built depends on the filter alone: it is
    built whenever the filter is empty, and when it is not built the filter
    is not empty, [json.Unmarshal] has failed with an error [e] and the
    error is [Error encoding object filter: e].  No value of the id, of the
    mask, of the limit or of the offset, no session and no service name
    makes it fail. *)
Theorem headers_fail_on_filter_only sess service options :
  (sl.Filter options = EmptyString →
   ∃ headers, session.DoRequest_headers sess service options = inr headers) ∧
  (∀ err, session.DoRequest_headers sess service options = inl err →
     sl.Filter options ≠ EmptyString ∧
     ∃ e, json.Unmarshal session.json_scan (sl.Filter options) ∅ = inl e ∧
          err = "Error encoding object filter: " +:+ e) ∧
  (∀ sess' service' options' err,
     sl.Filter options' = sl.Filter options →
     session.DoRequest_headers sess service options = inl err →
     session.DoRequest_headers sess' service' options' = inl err).
Proof.
  split_and!.
  - apply DoRequest_headers_no_filter.
  - intros err. apply DoRequest_headers_inl_form.
  - intros sess' service' options' err Heq.
    unfold session.DoRequest_headers, session.headers_filter. rewrite Heq.
    case_decide; [|done].
    by destruct (json.Unmarshal _ _ _).
Qed.


End HeaderKeys.

(** ** What a request returns and what it leaves behind *)

Section Outcome.

Context {Arg : Type} {imports : session.Imports Arg}.

Implicit Types (x : session.XmlRpcTransport) (sess : session.Session).
Implicit Types (service method : string) (options : sl.Options) (args : list Arg).
Implicit Types (headers : gmap string session.HeaderValue) (w : session.World Arg).
Implicit Types (client : session.Client).

(** The three ways [DoRequest] ends. *)
Lemma DoRequest_cases x sess service method args options w :
  (∃ err w1,
     session.DoRequest_client x sess service w = (inl err, w1) ∧
     session.DoRequest x sess service method args options w = (Some err, w1)) ∨
  (∃ client w1 err,
     session.DoRequest_client x sess service w = (inr client, w1) ∧
     session.DoRequest_headers sess service options = inl err ∧
     session.DoRequest x sess service method args options w = (Some err, w1)) ∨
  (∃ client w1 headers,
     session.DoRequest_client x sess service w = (inr client, w1) ∧
     session.DoRequest_headers sess service options = inr headers ∧
     session.DoRequest x sess service method args options w =
       session.Call client method (session.DoRequest_params headers args) w1).
Proof.
  unfold session.DoRequest.
  destruct (session.DoRequest_client x sess service w) as [[err|client] w1].
  - left. by exists err, w1.
  - destruct (session.DoRequest_headers sess service options) as [err|headers].
    + right; left. by exists client, w1, err.
    + right; right. by exists client, w1, headers.
Qed.

(** The error of [DoRequest_client] is the error of the creation. *)
Lemma DoRequest_client_inl x sess service w err w1 :
  session.DoRequest_client x sess service w = (inl err, w1) →
  session.xmlRpcClients w !! service = None ∧
  ∃ e,
    session.NewClient_error (Sprintf_url (session.Endpoint sess) service)
      (session.DoRequest_roundTripper sess) (session.DoRequest_timeout x) = Some e ∧
    err = session.Errorf_create service e.
Proof.
  unfold session.DoRequest_client, session.NewClient.
  destruct (session.xmlRpcClients w !! service); [done|].
  destruct (session.NewClient_error _ _ _) as [e|] eqn:He; [|done].
  intros [= <- <-]. split; [done|]. by exists e.
Qed.

Lemma app_singleton_neq {A : Type} (l : list A) (a : A) : l ≠ l ++ [a].
Proof.
  intros Heq. apply (f_equal length) in Heq. rewrite length_app in Heq.
  simpl in Heq. lia.
Qed.

(** X4. [DoRequest] returns [nil] exactly when it has the client, has built
    the header map and has made the call, and the call has returned [nil].
    It makes the call at most once, whatever the call returns.  When it
    returns without having made the call, it returns an error, which is the
    error of the creation of the client or the error of the filter. *)
Theorem DoRequest_outcome x sess service method args options w :
  let r := session.DoRequest x sess service method args options w in
  (r.1 = None ↔
   ∃ client w1 headers,
     session.DoRequest_client x sess service w = (inr client, w1) ∧
     session.DoRequest_headers sess service options = inr headers ∧
     session.Call_error (session.events w1) client method
       (session.DoRequest_params headers args) = None) ∧
  (session.called (session.events r.2) = session.called (session.events w) ∨
   ∃ client,
     session.called (session.events r.2) =
     session.called (session.events w) ++ [client]) ∧
  (session.called (session.events r.2) = session.called (session.events w) →
   ∃ err,
     r.1 = Some err ∧
     ((∃ e, err = "Could not create an xmlrpc client for " +:+ service +:+
                  ": " +:+ e) ∨
      (∃ e, err = "Error encoding object filter: " +:+ e))).
Proof.
  intros r.
  pose proof (DoRequest_client_called x sess service w) as Hcalled.
  destruct (DoRequest_cases x sess service method args options w)
    as [(err & w1 & Hc & Hr)|[(client & w1 & err & Hc & Hh & Hr)
                             |(client & w1 & headers & Hc & Hh & Hr)]];
    unfold r; rewrite Hr; rewrite Hc in Hcalled; simpl in *.
  - split_and!.
    + split; [done|]. intros (? & ? & ? & Hc' & _). congruence.
    + by left.
    + intros _. exists err. split; [done|]. left.
      apply DoRequest_client_inl in Hc as (_ & e & _ & ->). by exists e.
  - split_and!.
    + split; [done|]. intros (? & ? & ? & _ & Hh' & _). congruence.
    + by left.
    + intros _. exists err. split; [done|]. right.
      destruct (DoRequest_headers_inl_form _ _ _ _ Hh) as (_ & e & _ & ->).
      by exists e.
  - rewrite called_app, Hcalled. simpl. split_and!.
    + split.
      * intros Hnil. by exists client, w1, headers.
      * intros (client' & w1' & headers' & Hc' & Hh' & Hnil).
        rewrite Hc in Hc'. rewrite Hh in Hh'. by simplify_eq.
    + right. by exists client.
    + intros Heq. symmetry in Heq. by apply app_singleton_neq in Heq.
Qed.

(** [DoRequest] leaves the pool as [DoRequest_client] leaves it. *)
Lemma DoRequest_pool x sess service method args options w :
  session.xmlRpcClients (session.DoRequest x sess service method args options w).2 =
  session.xmlRpcClients (session.DoRequest_client x sess service w).2.
Proof.
  destruct (DoRequest_cases x sess service method args options w)
    as [(err & w1 & Hc & Hr)|[(client & w1 & err & Hc & Hh & Hr)
                             |(client & w1 & headers & Hc & Hh & Hr)]];
    by rewrite Hr, Hc.
Qed.

(** X5. [DoRequest] never takes a client out of the pool and never replaces
    one: every entry of the pool is there afterwards, with the same client.
    It touches no entry but the one of its service, and the pool has a
    client for the service afterwards exactly when it had one before or the
    creation of one has succeeded, whether the request itself has failed or
    not. *)
Theorem DoRequest_keeps_pool x sess service method args options w :
  let w' := (session.DoRequest x sess service method args options w).2 in
  session.xmlRpcClients w ⊆ session.xmlRpcClients w' ∧
  (∀ service', service' ≠ service →
     session.xmlRpcClients w' !! service' = session.xmlRpcClients w !! service') ∧
  (is_Some (session.xmlRpcClients w' !! service) ↔
   is_Some (session.xmlRpcClients w !! service) ∨
   session.NewClient_error (Sprintf_url (session.Endpoint sess) service)
     (session.DoRequest_roundTripper sess) (session.DoRequest_timeout x) = None).
Proof.
  intros w'. unfold w'. rewrite DoRequest_pool.
  destruct (session.xmlRpcClients w !! service) as [client|] eqn:Hp.
  - rewrite (DoRequest_client_hit x sess service w client Hp). simpl.
    rewrite Hp. split_and!; [done|done|]. split; [by left|by eexists].
  - destruct (session.NewClient_error (Sprintf_url (session.Endpoint sess) service)
                (session.DoRequest_roundTripper sess) (session.DoRequest_timeout x))
      as [err|] eqn:He.
    + rewrite (DoRequest_client_miss_error x sess service w err Hp He). simpl.
      rewrite Hp. split_and!; [done|done|].
      split; [by intros [? [=]]|]. by intros [[? [=]]|[=]].
    + rewrite (DoRequest_client_miss_ok x sess service w Hp He). simpl.
      split_and!.
      * by apply insert_subseteq.
      * intros service' Hne. by rewrite lookup_insert_ne.
      * rewrite lookup_insert_eq. split; [by right|by eexists].
Qed.

End Outcome.

(** ** One request after the other *)

Section Sequences.

Context {Arg : Type} {imports : session.Imports Arg}.

Implicit Types (x : session.XmlRpcTransport) (sess : session.Session).
Implicit Types (service method : string) (options : sl.Options) (args : list Arg).
Implicit Types (headers : gmap string session.HeaderValue) (w : session.World Arg).
Implicit Types (client : session.Client) (q : sched.Request Arg).

(** X6. The client of a service keeps the configuration of the request that
    created it.  After a first request for a service has created the client,
    a second request for the service leaves the pool as it is and makes its
    call, when it comes to it, on this client: the URL is made of the
    endpoint of the first session, the round tripper follows the debug flag
    of the first session and the timeout is the one of the first transport,
    whatever the session and the transport of the second request are. *)
Theorem pooled_client_keeps_configuration
    x1 sess1 method1 args1 options1 x2 sess2 method2 args2 options2 service w :
  session.xmlRpcClients w !! service = None →
  session.NewClient_error (Sprintf_url (session.Endpoint sess1) service)
    (session.DoRequest_roundTripper sess1) (session.DoRequest_timeout x1) = None →
  let client :=
    session.mkClient (length (session.events w))
      (session.Endpoint sess1 +:+ "/" +:+ service)
      (if session.Debug sess1 then Some session.debugRoundTripper else None)
      (if decide (session.Timeout x1 = 0) then 30 * 1000000000
       else session.Timeout x1) in
  let w1 := (session.DoRequest x1 sess1 service method1 args1 options1 w).2 in
  let w2 := (session.DoRequest x2 sess2 service method2 args2 options2 w1).2 in
  session.xmlRpcClients w1 !! service = Some client ∧
  session.xmlRpcClients w2 = session.xmlRpcClients w1 ∧
  (∀ headers,
     session.DoRequest_headers sess2 service options2 = inr headers →
     session.events w2 =
     session.events w1 ++
     [session.CallEvent client method2 (session.DoRequest_params headers args2)]) ∧
  (∀ err,
     session.DoRequest_headers sess2 service options2 = inl err →
     session.events w2 = session.events w1).
Proof.
  intros Hp He client w1 w2.
  assert (client = session.mkClient (length (session.events w))
            (Sprintf_url (session.Endpoint sess1) service)
            (session.DoRequest_roundTripper sess1) (session.DoRequest_timeout x1))
    as Hclient.
  { unfold client, session.DoRequest_timeout. by repeat case_decide. }
  assert (session.xmlRpcClients w1 !! service = Some client) as Hp1.
  { unfold w1. rewrite DoRequest_pool.
    rewrite (DoRequest_client_miss_ok x1 sess1 service w Hp He). simpl.
    by rewrite lookup_insert_eq, Hclient. }
  pose proof (DoRequest_client_hit x2 sess2 service w1 client Hp1) as Hc.
  split_and!; [done| | |].
  - unfold w2. by rewrite DoRequest_pool, Hc.
  - intros headers Hh. unfold w2.
    by rewrite (DoRequest_dispatch _ _ _ _ _ _ _ _ _ _ Hc Hh).
  - intros err Hh. unfold w2.
    by rewrite (DoRequest_headers_error _ _ _ _ _ _ _ _ _ _ Hc Hh).
Qed.

(** What one request adds to the world. *)
Lemma DoRequest_step x sess service method args options w :
  let w' := (session.DoRequest x sess service method args options w).2 in
  session.xmlRpcClients w ⊆ session.xmlRpcClients w' ∧
  dom (session.xmlRpcClients w') ⊆@{gset string}
    dom (session.xmlRpcClients w) ∪ {[service]} ∧
  ∃ rest,
    session.events w' = session.events w ++ rest ∧
    size (session.xmlRpcClients w') =
      (size (session.xmlRpcClients w) +
       length (session.created (length (session.events w)) rest))%nat ∧
    (length (session.called rest) ≤ 1)%nat.
Proof.
  intros w'.
  assert (session.xmlRpcClients w' =
          session.xmlRpcClients (session.DoRequest_client x sess service w).2)
    as Hpool by apply DoRequest_pool.
  destruct (session.xmlRpcClients w !! service) as [client|] eqn:Hp;
    [|destruct (session.NewClient_error
                  (Sprintf_url (session.Endpoint sess) service)
                  (session.DoRequest_roundTripper sess)
                  (session.DoRequest_timeout x)) as [err|] eqn:He].
  - pose proof (DoRequest_client_hit x sess service w client Hp) as Hc.
    rewrite Hc in Hpool. simpl in Hpool. rewrite Hpool.
    split_and!; [done|apply union_subseteq_l|].
    destruct (DoRequest_after_client _ _ _ method args options _ _ _ Hc)
      as (rest & Hw & Hrest).
    exists rest. fold w' in Hw. rewrite Hw. simpl.
    destruct Hrest as [->|[params ->]]; simpl; split_and!; try done; lia.
  - pose proof (DoRequest_client_miss_error x sess service w err Hp He) as Hc.
    rewrite Hc in Hpool. simpl in Hpool. rewrite Hpool.
    split_and!; [done|apply union_subseteq_l|].
    eexists [_]. unfold w'.
    rewrite (DoRequest_client_error _ _ _ method args options _ _ _ Hc). simpl.
    split_and!; [done| |simpl; lia]. simpl. rewrite He. simpl. lia.
  - pose proof (DoRequest_client_miss_ok x sess service w Hp He) as Hc.
    rewrite Hc in Hpool. simpl in Hpool. rewrite Hpool.
    split_and!; [by apply insert_subseteq| |].
    { rewrite dom_insert_L. intros k. rewrite !elem_of_union. tauto. }
    destruct (DoRequest_after_client _ _ _ method args options _ _ _ Hc)
      as (rest & Hw & Hrest).
    exists (session.NewClientEvent (Sprintf_url (session.Endpoint sess) service)
              (session.DoRequest_roundTripper sess) (session.DoRequest_timeout x)
            :: rest).
    fold w' in Hw. rewrite Hw. simpl.
    rewrite He. rewrite <- app_assoc. simpl.
    rewrite map_size_insert_None by done.
    destruct Hrest as [->|[params ->]]; simpl; split_and!; try done; lia.
Qed.

Lemma DoRequests_growth (requests : list (sched.Request Arg)) w :
  let r := caller.DoRequests requests w in
  length r.1 = length requests ∧
  session.xmlRpcClients w ⊆ session.xmlRpcClients r.2 ∧
  dom (session.xmlRpcClients r.2) ⊆@{gset string}
    dom (session.xmlRpcClients w) ∪ list_to_set (sched.service <$> requests) ∧
  ∃ rest,
    session.events r.2 = session.events w ++ rest ∧
    size (session.xmlRpcClients r.2) =
      (size (session.xmlRpcClients w) +
       length (session.created (length (session.events w)) rest))%nat ∧
    (length (session.called rest) ≤ length requests)%nat.
Proof.
  revert w. induction requests as [|q requests IH]; intros w; simpl.
  - split_and!; [done|done|apply union_subseteq_l|].
    exists []. rewrite app_nil_r. simpl. split_and!; [done|lia|lia].
  - pose proof (DoRequest_step (sched.x q) (sched.sess q) (sched.service q)
                  (sched.method q) (sched.args q) (sched.options q) w)
      as (Hsub & Hdom & rest1 & Hev1 & Hsize1 & Hcall1).
    destruct (session.DoRequest _ _ _ _ _ _ w) as [err w1]. simpl in *.
    specialize (IH w1) as (Hlen & Hsub2 & Hdom2 & rest2 & Hev2 & Hsize2 & Hcall2).
    destruct (caller.DoRequests requests w1) as [errs w2]. simpl in *.
    split_and!.
    + by rewrite Hlen.
    + by trans (session.xmlRpcClients w1).
    + intros k Hk. apply Hdom2 in Hk.
      apply elem_of_union in Hk as [Hk|Hk].
      * apply Hdom in Hk. revert Hk. rewrite !elem_of_union. tauto.
      * rewrite !elem_of_union. tauto.
    + exists (rest1 ++ rest2). split_and!.
      * by rewrite Hev2, Hev1, <- app_assoc.
      * rewrite created_app, length_app, Hsize2, Hsize1, Hev1, length_app. lia.
      * rewrite called_app, length_app. lia.
Qed.

(** X7. Requests made one after the other, for any services and with any
    sessions: no client is ever taken out of the pool or replaced, the pool
    gains entries for the services of the requests only, every client that
    has been created is in the pool (the pool has grown by the number of
    clients created), so that no more clients have been created than the
    requests name different services, and at most one call has been made
    for each request; there is one result for each request. *)
Theorem DoRequests_pool (requests : list (sched.Request Arg)) w :
  let r := caller.DoRequests requests w in
  length r.1 = length requests ∧
  session.xmlRpcClients w ⊆ session.xmlRpcClients r.2 ∧
  dom (session.xmlRpcClients r.2) ⊆@{gset string}
    dom (session.xmlRpcClients w) ∪ list_to_set (sched.service <$> requests) ∧
  ∃ rest,
    session.events r.2 = session.events w ++ rest ∧
    size (session.xmlRpcClients r.2) =
      (size (session.xmlRpcClients w) +
       length (session.created (length (session.events w)) rest))%nat ∧
    (length (session.created (length (session.events w)) rest) ≤
     size (list_to_set (sched.service <$> requests) : gset string))%nat ∧
    (length (session.called rest) ≤ length requests)%nat.
Proof.
  intros r.
  destruct (DoRequests_growth requests w)
    as (Hlen & Hsub & Hdom & rest & Hev & Hsize & Hcalls).
  fold r in Hlen, Hsub, Hdom, Hev, Hsize.
  split_and!; [done|done|done|].
  exists rest. split_and!; [done|done| |done].
  apply subseteq_size in Hdom.
  rewrite size_union_alt, !size_dom in Hdom.
  assert (size (list_to_set (sched.service <$> requests)
                  ∖ dom (session.xmlRpcClients w) : gset string)
          ≤ size (list_to_set (sched.service <$> requests) : gset string))%nat
    as Hle by (apply subseteq_size, subseteq_difference_l; done).
  lia.
Qed.

End Sequences.

(** ** Chains of setter calls *)

Section Chains.

Context {SessionPtr : Type}.

Implicit Types (r : services.Compliance_Report_Type SessionPtr).
Implicit Types (s : services_ptr.Setter) (setters : list services_ptr.Setter).

Lemma chain_snoc setters s r :
  caller.chain (setters ++ [s]) r =
  services_ptr.call_loaded s (caller.chain setters r).
Proof. unfold caller.chain. by rewrite foldl_snoc. Qed.

Lemma last_call_snoc {A : Type} (pick : services_ptr.Setter → option A) setters s :
  caller.last_call pick (setters ++ [s]) =
  match pick s with
  | Some a => Some a
  | None => caller.last_call pick setters
  end.
Proof. unfold caller.last_call. by rewrite foldl_snoc. Qed.

(** X8. After any chain of setter calls each field holds what the last call
    of its setter has stored, or what the receiver had when its setter has
    not been called: the order of the calls of different setters does not
    matter, and a setter called again overrides its earlier calls.  The
    session is the one of the receiver. *)
Theorem chain_last_call_wins setters r :
  let r' := caller.chain setters r in
  services.Session r' = services.Session r ∧
  sl.Id (services.Options r') =
    match caller.last_call caller.id_of setters with
    | Some id => Some id
    | None => sl.Id (services.Options r)
    end ∧
  sl.Mask (services.Options r') =
    match caller.last_call caller.mask_of setters with
    | Some mask => services.Mask_wrap mask
    | None => sl.Mask (services.Options r)
    end ∧
  sl.Filter (services.Options r') =
    match caller.last_call caller.filter_of setters with
    | Some filter => filter
    | None => sl.Filter (services.Options r)
    end ∧
  sl.Limit (services.Options r') =
    match caller.last_call caller.limit_of setters with
    | Some limit => Some limit
    | None => sl.Limit (services.Options r)
    end ∧
  sl.Offset (services.Options r') =
    match caller.last_call caller.offset_of setters with
    | Some offset => Some offset
    | None => sl.Offset (services.Options r)
    end.
Proof.
  induction setters as [|s setters IH] using rev_ind; [done|].
  cbv zeta in *. rewrite chain_snoc, !last_call_snoc.
  destruct IH as (IHs & IHid & IHmask & IHfilter & IHlimit & IHoffset).
  destruct s; simpl; by split_and!.
Qed.

(** X9. The mask that [Mask] stores is its argument, or its argument between
    [mask[] and []]; when it has a bracket it starts with [mask[]; it is
    empty only when the argument is; and [Mask] called with the stored mask
    stores it again as it is. *)
Theorem Mask_stores_canonical r (mask : string) :
  let stored := sl.Mask (services.Options (services.Mask r mask)) in
  (stored = mask ∨ stored = "mask[" +:+ mask +:+ "]") ∧
  (Contains stored "[" = true → HasPrefix stored "mask[" = true) ∧
  (stored = EmptyString ↔ mask = EmptyString) ∧
  services.Mask r stored = services.Mask r mask.
Proof.
  intros stored. unfold stored. rewrite Options_Mask.
  split_and!.
  - unfold services.Mask_wrap. destruct (_ && _); [by right|by left].
  - unfold services.Mask_wrap.
    destruct (HasPrefix mask "mask[") eqn:Hp; cbn [negb andb]; [done|].
    destruct (Contains mask "[") eqn:Hc; [|congruence].
    intros _. apply HasPrefix_Sprintf_mask.
  - split; [|by intros ->].
    unfold services.Mask_wrap. by destruct (_ && _).
  - unfold services.Mask. by rewrite Mask_wrap_idempotent.
Qed.

End Chains.

(** ** The debugging round tripper *)

Section RoundTripper.

Context {Request Response : Type}.

Variable DumpRequestOut : Request → string.
Variable DumpResponse : option Response → string.
Variable DefaultTransport : Request → option Response * option string.

(** X10. [debugRoundTripper.RoundTrip] returns the response and the error
    of the default transport as they are.  It takes no line out of the log;
    it writes the line [->>>Request:] and the dump of the request first,
    and then the error when there is one, or else the line of the response
    and the dump of the response. *)
Theorem RoundTrip_observes (request : Request) (log : list string) :
  let r := debug.RoundTrip DumpRequestOut DumpResponse DefaultTransport request log in
  r.1 = DefaultTransport request ∧
  r.2 =
    log ++
    "->>>Request:" :: DumpRequestOut request ::
    match (DefaultTransport request).2 with
    | Some e => ["Error: " +:+ e]
    | None =>
        [String debug.LF (String debug.LF "<<<-Response:");
         DumpResponse (DefaultTransport request).1]
    end.
Proof.
  unfold debug.RoundTrip, debug.Println.
  destruct (DefaultTransport request) as [response [e|]]; simpl;
    by rewrite <- !app_assoc.
Qed.

End RoundTripper.

(** ** Two invocations for services that have their clients *)

Section Warm.

Context {Arg : Type} {imports : session.Imports Arg}.

Variables (q1 q2 : sched.Request Arg) (w0 : session.World Arg).
Variables (client1 client2 : session.Client).

Hypothesis pooled1 : session.xmlRpcClients w0 !! sched.service q1 = Some client1.
Hypothesis pooled2 : session.xmlRpcClients w0 !! sched.service q2 = Some client2.

Implicit Types (w : session.World Arg) (pc : sched.Pc).






End Warm.

(** ** Chains of setter calls and the variables they share *)

Section PointerChains.

Context {SessionPtr : Type}.

Implicit Types (h : sl_ptr.Heap) (o : sl_ptr.Options).
Implicit Types (r : services_ptr.Compliance_Report_Type SessionPtr).
Implicit Types (s : services_ptr.Setter) (setters : list services_ptr.Setter).

Lemma chain_ptr_snoc setters s r h :
  caller.chain_ptr (setters ++ [s]) r h =
  services_ptr.call s (caller.chain_ptr setters r h).1 (caller.chain_ptr setters r h).2.
Proof. unfold caller.chain_ptr. by rewrite foldl_snoc. Qed.

(** X12. A chain of setter calls on a struct of the caller, however long:
    the struct it returns reads as the chain of the calls says, and the
    struct it was called on, like any other struct, reads as before the
    first call.  None of the calls writes to a variable that a struct made
    before it points to. *)
Theorem chain_ptr_non_destructive setters r h :
  sl_ptr.wf h (services_ptr.Options r) →
  let r' := (caller.chain_ptr setters r h).1 in
  let h' := (caller.chain_ptr setters r h).2 in
  services_ptr.load h' r' = caller.chain setters (services_ptr.load h r) ∧
  sl_ptr.wf h' (services_ptr.Options r') ∧
  (∀ r0, sl_ptr.wf h (services_ptr.Options r0) →
     services_ptr.load h' r0 = services_ptr.load h r0 ∧
     sl_ptr.wf h' (services_ptr.Options r0)).
Proof.
  intros Hwf. induction setters as [|s setters IH] using rev_ind.
  - simpl. by split_and!.
  - cbv zeta in *. rewrite chain_ptr_snoc, chain_snoc.
    destruct IH as (IHload & IHwf & IHframe).
    destruct (load_call s _ _ IHwf) as [Hload Hwf'].
    split_and!.
    + by rewrite Hload, IHload.
    + done.
    + intros r0 Hwf0. destruct (IHframe r0 Hwf0) as [Hload0 Hwf0'].
      destruct (load_call_other s (caller.chain_ptr setters r h).1 _ _ Hwf0')
        as [Hload0' Hwf0''].
      split; [|done]. unfold services_ptr.load in *. rewrite Hload0'.
      exact Hload0.
Qed.

End PointerChains.

(** * The further properties on the stand-ins *)

(** X1 at the id 42, the mask [id] and the limit 10: four keys. *)
Lemma header_keys_witness :
  let headers : gmap string session.HeaderValue :=
    {[ "authenticate" := stub.authenticate;
       "WidgetInitParameters" := session.IntMap {[ "id" := 42 ]};
       "SoftLayer_ObjectMask" := session.StringMap {[ "mask" := "mask[id]" ]};
       "resultLimit" := session.IntMap {[ "limit" := 10; "offset" := 0 ]} ]} in
  session.DoRequest_headers (imports := stub.imports) stub.sess "Widget"
    (stub.with_id_mask_limit 42 "id" 10) = inr headers ∧
  size headers = 4%nat.
Proof.
  intros headers.
  assert (session.DoRequest_headers (imports := stub.imports) stub.sess "Widget"
            (stub.with_id_mask_limit 42 "id" 10) = inr headers) as Hh by reflexivity.
  split; [exact Hh|].
  rewrite (proj2 (header_keys (imports := stub.imports) stub.sess "Widget"
                    (stub.with_id_mask_limit 42 "id" 10) headers Hh)).
  reflexivity.
Defined.


(** X6 at a first request of the session [stub.sess] and a second request of
    a session whose endpoint is no URL: the second call is made on the
    client of the first. *)
Lemma pooled_client_keeps_configuration_witness :
  session.xmlRpcClients stub.start !! "Widget" = None ∧
  session.NewClient_error (Imports := stub.imports)
    (Sprintf_url (session.Endpoint stub.sess) "Widget")
    (session.DoRequest_roundTripper stub.sess)
    (session.DoRequest_timeout stub.transport) = None ∧
  session.xmlRpcClients
    (session.DoRequest (imports := stub.imports) stub.transport stub.bad_sess
       "Widget" "getObject" [] (stub.with_id 42)
       (session.DoRequest (imports := stub.imports) stub.transport stub.sess
          "Widget" "getObject" [] (stub.with_id 42) stub.start).2).2
  = session.xmlRpcClients
      (session.DoRequest (imports := stub.imports) stub.transport stub.sess
         "Widget" "getObject" [] (stub.with_id 42) stub.start).2.
Proof.
  assert (session.xmlRpcClients stub.start !! "Widget" = None) as Hp by reflexivity.
  assert (session.NewClient_error (Imports := stub.imports)
            (Sprintf_url (session.Endpoint stub.sess) "Widget")
            (session.DoRequest_roundTripper stub.sess)
            (session.DoRequest_timeout stub.transport) = None) as He by reflexivity.
  split; [exact Hp|]. split; [exact He|].
  exact (proj1 (proj2 (pooled_client_keeps_configuration (imports := stub.imports)
                         stub.transport stub.sess "getObject" [] (stub.with_id 42)
                         stub.transport stub.bad_sess "getObject" []
                         (stub.with_id 42) "Widget" stub.start Hp He))).
Defined.


(** X12 at the chain [Id(5).Limit(3).Id(6)] on a struct whose id is 7. *)
Lemma chain_ptr_non_destructive_witness :
  let setters :=
    [services_ptr.SetId 5; services_ptr.SetLimit 3; services_ptr.SetId 6] in
  sl_ptr.wf stub.heap (services_ptr.Options stub.service_ptr) ∧
  services_ptr.load (caller.chain_ptr setters stub.service_ptr stub.heap).2
    (caller.chain_ptr setters stub.service_ptr stub.heap).1
  = caller.chain setters (services_ptr.load stub.heap stub.service_ptr).
Proof.
  intros setters.
  assert (sl_ptr.wf stub.heap (services_ptr.Options stub.service_ptr)) as Hwf.
  { split_and!; [by exists 7|done|done]. }
  split; [exact Hwf|].
  exact (proj1 (chain_ptr_non_destructive setters stub.service_ptr stub.heap Hwf)).
Defined.
